(** * mgrep: the Boyer-Moore core (boyer_moore.c) and its callers in mgrep.c

    A shallow embedding of [make_delta1], [is_prefix], [suffix_length],
    [make_delta2] and [bm_search] of boyer_moore.c and of [hchar],
    [hex_decode], [print_match] and the "find all matches" loop of [main] in
    mgrep.c, followed by their properties.

    Conventions of the embedding.
    - [size_t] is an unsigned integer of [w] bits ([w] is a parameter of the
      development, at least 32); its arithmetic is written with the reduction
      modulo [2^w].  [int] and [int32_t] are 32-bit two's-complement integers;
      their arithmetic is written with the wrap-around of the compilers the
      program is built with.
    - Arrays are lists; every load and store names the index it uses.  A load
      or store outside the array is a [Fault]; every load is also recorded in
      a trace, in the order of execution.
    - Loops whose trip count is not fixed by their header take an iteration
      budget ([fuel]); running out of it is a [Timeout]. *)

From Stdlib Require Import ZArith List Lia Bool Sorted.
From Stdlib Require Import Strings.Byte.
Import ListNotations.
Local Open Scope Z_scope.

Abbreviation zlen l := (Z.of_nat (length l)).

(** ** Outcomes, traces and the monad of the embedding *)

Inductive region : Type := Rstring | Rpat | Rdelta1 | Rdelta2.

(** One load: the array it reads and the index it uses. *)
Definition access : Type := (region * Z)%type.

Inductive outcome (A : Type) : Type :=
| Ret (a : A)
| Fault
| Timeout.
Arguments Ret {A} a.
Arguments Fault {A}.
Arguments Timeout {A}.

Definition M (A : Type) : Type := (list access * outcome A)%type.

Definition trace {A} (m : M A) : list access := fst m.
Definition result {A} (m : M A) : outcome A := snd m.

Definition ret {A} (a : A) : M A := ([], Ret a).
Definition fault {A} : M A := ([], Fault).
Definition timeout {A} : M A := ([], Timeout).

Definition bind {A B} (m : M A) (f : A -> M B) : M B :=
  match m with
  | (t, Ret a) => let (t', r) := f a in (t ++ t', r)
  | (t, Fault) => (t, Fault)
  | (t, Timeout) => (t, Timeout)
  end.

Notation "x <- m ;; k" := (bind m (fun x => k))
  (at level 61, m at next level, right associativity).
Notation "' p <- m ;; k" := (bind m (fun x => match x with p => k end))
  (at level 61, p pattern, m at next level, right associativity).

(** ** Arrays *)

Definition rd {A} (l : list A) (i : Z) : option A :=
  if i <? 0 then None else nth_error l (Z.to_nat i).

Fixpoint upd {A} (n : nat) (v : A) (l : list A) : list A :=
  match l, n with
  | [], _ => []
  | _ :: t, O => v :: t
  | x :: t, S n' => x :: upd n' v t
  end.

Definition wr {A} (l : list A) (i : Z) (v : A) : option (list A) :=
  if (0 <=? i) && (i <? zlen l) then Some (upd (Z.to_nat i) v l) else None.

(** [a[i]] as an rvalue. *)
Definition load {A} (r : region) (a : list A) (i : Z) : M A :=
  ([(r, i)], match rd a i with Some v => Ret v | None => Fault end).

(** [a[i] = v]. *)
Definition store {A} (a : list A) (i : Z) (v : A) : M (list A) :=
  ([], match wr a i v with Some a' => Ret a' | None => Fault end).

(** The value of a [uint8_t] after integer promotion. *)
Definition byte_val (c : byte) : Z := Z.of_N (Byte.to_N c).

(** The same accesses as total functions, for the statements. *)
Definition byte_at (l : list byte) (i : Z) : byte := nth (Z.to_nat i) l "000"%byte.
Definition int_at (l : list Z) (i : Z) : Z := nth (Z.to_nat i) l 0.

(** ** Machine integers *)

Definition INT_MIN : Z := - 2 ^ 31.
Definition INT_MAX : Z := 2 ^ 31 - 1.

(** Conversion to [int] / [int32_t]. *)
Definition to_int (z : Z) : Z := (z + 2 ^ 31) mod 2 ^ 32 - 2 ^ 31.

Definition int_add (a b : Z) : Z := to_int (a + b).
Definition int_sub (a b : Z) : Z := to_int (a - b).

(** boyer_moore.h *)
Definition ALPHABET_LEN : Z := 256.

Section WordSize.

(** Width of [size_t]. *)
Variable w : Z.

Definition SIZE_MOD : Z := 2 ^ w.

(** Conversion to [size_t]. *)
Definition to_size (z : Z) : Z := z mod SIZE_MOD.

(** [#define NOT_FOUND ((size_t)-1)] *)
Definition NOT_FOUND : Z := to_size (-1).

(** The largest object the platform holds, [PTRDIFF_MAX]. *)
Definition PTRDIFF_MAX : Z := 2 ^ (w - 1) - 1.

(** ** boyer_moore.c *)

(** [#define max(a, b) ((a < b) ? b : a)]: a macro, so the chosen operand is
    evaluated a second time. *)
Definition max (a b : M Z) : M Z :=
  x <- a ;;
  y <- b ;;
  if x <? y then b else a.

(** [for (i = lo; i < hi; i++) body], on an [int] counter; [n] bounds the
    number of iterations. *)
Fixpoint for_up {St} (n : nat) (i hi : Z) (body : Z -> St -> M St) (s : St) : M St :=
  if i <? hi then
    match n with
    | O => timeout
    | S n' => s' <- body i s ;; for_up n' (int_add i 1) hi body s'
    end
  else ret s.

(** [for (p = hi; p >= 0; p--) body], on an [int] counter. *)
Fixpoint for_down {St} (n : nat) (p : Z) (body : Z -> St -> M St) (s : St) : M St :=
  if 0 <=? p then
    match n with
    | O => timeout
    | S n' => s' <- body p s ;; for_down n' (int_sub p 1) body s'
    end
  else ret s.

(** [void make_delta1(int *delta1, const uint8_t *pat, int32_t patlen)] *)
Definition make_delta1 (delta1 : list Z) (pat : list byte) (patlen : Z) : M (list Z) :=
  delta1 <- for_up (Z.to_nat ALPHABET_LEN) 0 ALPHABET_LEN
              (fun i delta1 => store delta1 i patlen) delta1 ;;
  for_up (Z.to_nat (patlen - 1)) 0 (int_sub patlen 1)
    (fun i delta1 =>
       c <- load Rpat pat i ;;
       store delta1 (byte_val c) (int_sub (int_sub patlen 1) i))
    delta1.

(** The loop of [is_prefix]: [return 0] on the first difference, [return 1]
    when [i] reaches [suffixlen]. *)
Fixpoint is_prefix_loop (n : nat) (word : list byte) (pos suffixlen i : Z) : M Z :=
  if i <? suffixlen then
    match n with
    | O => timeout
    | S n' =>
        a <- load Rpat word i ;;
        b <- load Rpat word (int_add pos i) ;;
        if negb (Byte.eqb a b) then ret 0
        else is_prefix_loop n' word pos suffixlen (int_add i 1)
    end
  else ret 1.

(** [static int is_prefix(const uint8_t *word, int wordlen, int pos)] *)
Definition is_prefix (word : list byte) (wordlen pos : Z) : M Z :=
  let suffixlen := int_sub wordlen pos in
  is_prefix_loop (Z.to_nat suffixlen) word pos suffixlen 0.

(** The loop of [suffix_length]:
    [for (i = 0; (word[pos-i] == word[wordlen-1-i]) && (i < pos); i++);] *)
Fixpoint suffix_length_loop (n : nat) (word : list byte) (wordlen pos i : Z) : M Z :=
  a <- load Rpat word (int_sub pos i) ;;
  b <- load Rpat word (int_sub (int_sub wordlen 1) i) ;;
  if Byte.eqb a b && (i <? pos) then
    match n with
    | O => timeout
    | S n' => suffix_length_loop n' word wordlen pos (int_add i 1)
    end
  else ret i.

(** [static int suffix_length(const uint8_t *word, int wordlen, int pos)] *)
Definition suffix_length (word : list byte) (wordlen pos : Z) : M Z :=
  suffix_length_loop (Z.to_nat pos) word wordlen pos 0.

(** [void make_delta2(int *delta2, const uint8_t *pat, int32_t patlen)].
    The state of the first loop is [last_prefix_index] and the table. *)
Definition make_delta2 (delta2 : list Z) (pat : list byte) (patlen : Z) : M (list Z) :=
  let last_prefix_index := int_sub patlen 1 in
  (* first loop *)
  ' (_, delta2) <-
    for_down (Z.to_nat patlen) (int_sub patlen 1)
      (fun p '(last_prefix_index, delta2) =>
         t <- is_prefix pat patlen (int_add p 1) ;;
         let last_prefix_index :=
           if negb (t =? 0) then int_add p 1 else last_prefix_index in
         delta2 <- store delta2 p
                     (int_add last_prefix_index (int_sub (int_sub patlen 1) p)) ;;
         ret (last_prefix_index, delta2))
      (last_prefix_index, delta2) ;;
  (* second loop *)
  for_up (Z.to_nat (patlen - 1)) 0 (int_sub patlen 1)
    (fun p delta2 =>
       slen <- suffix_length pat patlen p ;;
       a <- load Rpat pat (int_sub p slen) ;;
       b <- load Rpat pat (int_sub (int_sub patlen 1) slen) ;;
       if negb (Byte.eqb a b) then
         store delta2 (int_sub (int_sub patlen 1) slen)
           (int_add (int_sub (int_sub patlen 1) p) slen)
       else ret delta2)
    delta2.

(** The inner loop of [bm_search]:
    [while (j >= 0 && (string[i] == pat[j])) { --i; --j; }]
    It yields the values of [i] and [j] on exit. *)
Fixpoint bm_match (fuel : nat) (string pat : list byte) (i j : Z) : M (Z * Z) :=
  match fuel with
  | O => timeout
  | S fuel' =>
      if 0 <=? j then
        a <- load Rstring string i ;;
        b <- load Rpat pat j ;;
        if Byte.eqb a b then
          bm_match fuel' string pat (to_size (i - 1)) (int_sub j 1)
        else ret (i, j)
      else ret (i, j)
  end.

(** The way [bm_search] is left. *)
Inductive bm_exit : Type :=
| Matched (offset : Z)   (* [return i + 1;] *)
| Exhausted.             (* [return NOT_FOUND;] *)

(** The outer loop of [bm_search], [while (i < stringlen) ...]. *)
Fixpoint bm_scan (fuel : nat) (string : list byte) (stringlen : Z)
    (pat : list byte) (patlen : Z) (delta1 delta2 : list Z) (i : Z) : M bm_exit :=
  match fuel with
  | O => timeout
  | S fuel' =>
      if i <? stringlen then
        ' (i, j) <- bm_match fuel' string pat i (to_int (to_size (patlen - 1))) ;;
        if j <? 0 then ret (Matched (to_size (i + 1)))
        else
          shift <- max (c <- load Rstring string i ;; load Rdelta1 delta1 (byte_val c))
                       (load Rdelta2 delta2 j) ;;
          bm_scan fuel' string stringlen pat patlen delta1 delta2 (to_size (i + shift))
      else ret Exhausted
  end.

Definition bm_search_exit (fuel : nat) (string : list byte) (stringlen : Z)
    (pat : list byte) (patlen : Z) (delta1 delta2 : list Z) : M bm_exit :=
  bm_scan fuel string stringlen pat patlen delta1 delta2 (to_size (patlen - 1)).

Definition exit_value (e : bm_exit) : Z :=
  match e with
  | Matched offset => offset
  | Exhausted => NOT_FOUND
  end.

(** [size_t bm_search(const uint8_t *string, size_t stringlen,
                      const uint8_t *pat, size_t patlen,
                      int *delta1, int *delta2)] *)
Definition bm_search (fuel : nat) (string : list byte) (stringlen : Z)
    (pat : list byte) (patlen : Z) (delta1 delta2 : list Z) : M Z :=
  e <- bm_search_exit fuel string stringlen pat patlen delta1 delta2 ;;
  ret (exit_value e).

(** ** mgrep.c *)

(** The "find all matches" loop of [main] (from [size_t last = 0;] on), for
    one mapped file.  It yields the offsets handed to [print_match], in
    order; [count] grows by one for each of them. *)
Fixpoint main_find_all (fuel : nat) (file : list byte) (file_size : Z)
    (pattern : list byte) (pattern_size : Z) (delta1 delta2 : list Z)
    (last : Z) : M (list Z) :=
  match fuel with
  | O => timeout
  | S fuel' =>
      next <- bm_search fuel' (skipn (Z.to_nat last) file) (to_size (file_size - last))
                pattern pattern_size delta1 delta2 ;;
      if negb (next =? NOT_FOUND) then
        rest <- main_find_all fuel' file file_size pattern pattern_size delta1 delta2
                  (to_size (last + to_size (next + pattern_size))) ;;
        ret (to_size (last + next) :: rest)
      else ret []
  end.

(** [uint8_t hchar(char c)]: the value of a hexadecimal digit; [None] stands
    for the other characters, on which [hchar] prints a message and calls
    [exit(1)].  The three ranges lie below 128, so the signedness of [char]
    plays no role. *)
Definition hchar (c : byte) : option Z :=
  let c := byte_val c in
  if (48 <=? c) && (c <=? 57) then Some (c - 48)
  else if (97 <=? c) && (c <=? 102) then Some (c - 97 + 10)
  else if (65 <=? c) && (c <=? 70) then Some (c - 65 + 10)
  else None.

(** Conversion to [uint8_t]. *)
Definition to_uint8 (z : Z) : byte :=
  match Byte.of_N (Z.to_N (z mod 256)) with
  | Some b => b
  | None => "000"%byte
  end.

(** The ways [hex_decode] ends. *)
Inductive hex_decoded : Type :=
| Hex_null                                    (* [return NULL;] *)
| Hex_exit                                    (* [exit(1)], in [hchar] *)
| Hex_bytes (bytes : list byte) (hex_size : Z). (* [return ret;] with [*hex_size] *)

(** The loop of [hex_decode]; [block] is the array [ret] points to.  [None]
    is the exit in [hchar]. *)
Fixpoint hex_decode_loop (n : nat) (word block : list byte) (ret_size i : Z)
  : M (option (list byte)) :=
  if i <? ret_size then
    match n with
    | O => timeout
    | S n' =>
        hi <- load Rpat word (to_size (2 * i)) ;;
        lo <- load Rpat word (to_size (to_size (2 * i) + 1)) ;;
        match hchar hi, hchar lo with
        | Some h, Some l =>
            block <- store block i (to_uint8 (Z.lor (Z.shiftl h 4) l)) ;;
            hex_decode_loop n' word block ret_size (to_size (i + 1))
        | _, _ => ret None
        end
    end
  else ret (Some block).

(** [uint8_t *hex_decode(const char* word, size_t *hex_size)].  [word] is
    [None] for a null pointer and otherwise the characters of the string
    before its terminator; [block] is the memory [malloc(ret_size)] hands
    out. *)
Definition hex_decode (block : list byte) (word : option (list byte))
  : M hex_decoded :=
  match word with
  | None => ret Hex_null
  | Some word =>
      let wlen := zlen word in
      if wlen =? 0 then ret Hex_null
      else if negb (wlen mod 2 =? 0) then ret Hex_null
      else
        let ret_size := wlen / 2 in
        r <- hex_decode_loop (Z.to_nat ret_size) word block ret_size 0 ;;
        match r with
        | Some bytes => ret (Hex_bytes bytes ret_size)
        | None => ret Hex_exit
        end
  end.

(** [#define LINE_SIZE 16] *)
Definition LINE_SIZE : Z := 16.

(** One call of [printf] in [print_match]. *)
Inductive printed : Type :=
| Pr_addr (cur : Z)              (* [printf("%08zx ", cur)] *)
| Pr_blank3                      (* [printf("   ")] *)
| Pr_hex (b : byte) (red : bool) (* [printf(" %02x", file[i])], or the red form *)
| Pr_open                        (* [printf("  |")] *)
| Pr_blank1                      (* [printf(" ")] *)
| Pr_red_on                      (* [printf("\x1b[2;31m")] *)
| Pr_char (b : byte)             (* [printf("%c", file[i])] *)
| Pr_dot                         (* [printf(".")] *)
| Pr_red_off                     (* [printf("\x1b[0m")] *)
| Pr_close                       (* [printf("|\n")] *)
| Pr_newline.                    (* [printf("\n")] *)

(** [isprint] in the "C" locale (the program never sets another one). *)
Definition isprint (c : byte) : bool :=
  (32 <=? byte_val c) && (byte_val c <=? 126).

(** [color && (i >= offset) && (i < offset + pattern_size)], with the [int]
    [i] converted to [size_t] for the comparisons. *)
Definition in_red (color offset pattern_size i : Z) : bool :=
  negb (color =? 0) && (offset <=? to_size i)
  && (to_size i <? to_size (offset + pattern_size)).

(** The first [for] loop of a line of [print_match]: the hexadecimal cells. *)
Fixpoint print_hex_cells (n : nat) (file : list byte)
    (offset pattern_size start end_ color cur i : Z) : M (list printed) :=
  if to_size i <? to_size (cur + LINE_SIZE) then
    match n with
    | O => timeout
    | S n' =>
        cell <- (if (to_size i <? start) || (end_ <? to_size i)
                 then ret Pr_blank3
                 else b <- load Rstring file i ;;
                      ret (Pr_hex b (in_red color offset pattern_size i))) ;;
        rest <- print_hex_cells n' file offset pattern_size start end_ color cur
                  (int_add i 1) ;;
        ret (cell :: rest)
    end
  else ret [].

(** The second [for] loop of a line: the characters. *)
Fixpoint print_char_cells (n : nat) (file : list byte)
    (offset pattern_size start end_ color cur i : Z) : M (list printed) :=
  if to_size i <? to_size (cur + LINE_SIZE) then
    match n with
    | O => timeout
    | S n' =>
        cell <- (if (to_size i <? start) || (end_ <? to_size i)
                 then ret [Pr_blank1]
                 else
                   c <- load Rstring file i ;;
                   let red := in_red color offset pattern_size i in
                   shown <- (if isprint c
                             then b <- load Rstring file i ;; ret (Pr_char b)
                             else ret Pr_dot) ;;
                   ret ((if red then [Pr_red_on] else [])
                        ++ [shown]
                        ++ (if red then [Pr_red_off] else []))) ;;
        rest <- print_char_cells n' file offset pattern_size start end_ color cur
                  (int_add i 1) ;;
        ret (cell ++ rest)
    end
  else ret [].

(** The loop [while (cur < end)] of [print_match]: one line per round. *)
Fixpoint print_lines (fuel : nat) (file : list byte)
    (offset pattern_size start end_ color cur : Z) : M (list printed) :=
  match fuel with
  | O => timeout
  | S fuel' =>
      if cur <? end_ then
        hex <- print_hex_cells fuel' file offset pattern_size start end_ color cur
                 (to_int cur) ;;
        chars <- print_char_cells fuel' file offset pattern_size start end_ color
                   cur (to_int cur) ;;
        rest <- print_lines fuel' file offset pattern_size start end_ color
                  (to_size (cur + LINE_SIZE)) ;;
        ret ([Pr_addr cur] ++ hex ++ [Pr_open] ++ chars ++ [Pr_close] ++ rest)
      else ret []
  end.

(** [void print_match(const uint8_t *file, size_t offset, size_t pattern_size,
                      size_t before, size_t after, int color)] *)
Definition print_match (fuel : nat) (file : list byte)
    (offset pattern_size before after color : Z) : M (list printed) :=
  let start := to_size (offset - before) in
  let end_ := to_size (to_size (to_size (offset + pattern_size) + after) - 1) in
  let start_pad := start mod LINE_SIZE in
  let cur := to_size (start - start_pad) in
  lines <- print_lines fuel file offset pattern_size start end_ color cur ;;
  ret (lines ++ [Pr_newline]).

(** ** Vocabulary of the statements *)

(** [P] occurs in [B] at offset [o]. *)
Definition occurs_at (B P : list byte) (o : Z) : Prop :=
  0 <= o /\ o + zlen P <= zlen B /\
  forall k, 0 <= k < zlen P -> byte_at B (o + k) = byte_at P k.

(** The bytes [B[o .. o+len)]. *)
Definition slice (B : list byte) (o : Z) (len : nat) : list byte :=
  firstn len (skipn (Z.to_nat o) B).

(** The naive exhaustive search: try every offset from the left. *)
Fixpoint starts_with (s pat : list byte) {struct pat} : bool :=
  match pat, s with
  | [], _ => true
  | _ :: _, [] => false
  | p :: pat', c :: s' => Byte.eqb c p && starts_with s' pat'
  end.

Fixpoint naive_search (s pat : list byte) : option nat :=
  if starts_with s pat then Some O
  else match s with
       | [] => None
       | _ :: s' => option_map S (naive_search s' pat)
       end.

(** The naive greedy scan for non-overlapping matches: walk the buffer from
    the left; [pos] is the offset of [s] in the buffer and [skip] the number
    of bytes still covered by the last reported match. *)
Fixpoint naive_scan (s pat : list byte) (pos skip : nat) : list nat :=
  match s with
  | [] => []
  | _ :: s' =>
      match skip with
      | S k => naive_scan s' pat (S pos) k
      | O => if starts_with s pat
             then pos :: naive_scan s' pat (S pos) (length pat - 1)
             else naive_scan s' pat (S pos) O
      end
  end.

(** Writing bytes in hexadecimal, two digits a byte, with the digit
    characters given by [digit]; [hex_decode] is meant to undo it. *)
Definition hex_digit_lower (v : Z) : byte :=
  to_uint8 (if v <? 10 then 48 + v else 97 + (v - 10)).
Definition hex_digit_upper (v : Z) : byte :=
  to_uint8 (if v <? 10 then 48 + v else 65 + (v - 10)).

Fixpoint hex_encode (digit : Z -> byte) (bytes : list byte) : list byte :=
  match bytes with
  | [] => []
  | b :: rest =>
      digit (byte_val b / 16) :: digit (byte_val b mod 16)
      :: hex_encode digit rest
  end.





(** A load of [bm_search] stays inside the array it reads. *)
Definition in_bounds (B P : list byte) (a : access) : Prop :=
  match a with
  | (Rstring, i) => 0 <= i < zlen B
  | (Rpat, j) => 0 <= j < zlen P
  | (Rdelta1, c) => 0 <= c < ALPHABET_LEN
  | (Rdelta2, j) => 0 <= j < zlen P
  end.

(** The suffix of [P] that starts at [q] is a prefix of [P]. *)
Definition suffix_is_prefix (P : list byte) (q : Z) : Prop :=
  forall i, 0 <= i < zlen P - q -> byte_at P i = byte_at P (q + i).

(** After a mismatch at pattern position [j] (with [P[j+1 ..]] matched),
    moving the pattern [s] places to the right is consistent with what the
    comparison has shown. *)
Definition compatible (P : list byte) (j s : Z) : Prop :=
  (forall k, j < k < zlen P -> 0 <= k - s -> byte_at P (k - s) = byte_at P k) /\
  (0 <= j - s -> byte_at P (j - s) <> byte_at P j).

(** What the scanner needs from its two tables. *)
Definition tables_ok (P : list byte) (delta1 delta2 : list Z) : Prop :=
  zlen delta1 = ALPHABET_LEN /\ length delta2 = length P /\
  (forall c, 1 <= int_at delta1 (byte_val c) <= zlen P) /\
  (forall k, 0 <= k < zlen P - 1 ->
             int_at delta1 (byte_val (byte_at P k)) <= zlen P - 1 - k) /\
  (forall j, 0 <= j < zlen P ->
             zlen P - j <= int_at delta2 j <= 2 * zlen P - 1 /\
             forall s, 1 <= s -> s + (zlen P - 1 - j) < int_at delta2 j ->
                       ~ compatible P j s).

(** The tables as [main] prepares them: two arrays of 256 and [patlen]
    [int]s (whatever [malloc] left in them), filled by [make_delta1] and
    [make_delta2]. *)
Definition built_from (P : list byte) (delta1 delta2 : list Z) : Prop :=
  exists d1_0 d2_0,
    zlen d1_0 = ALPHABET_LEN /\ length d2_0 = length P /\
    result (make_delta1 d1_0 P (zlen P)) = Ret delta1 /\
    result (make_delta2 d2_0 P (zlen P)) = Ret delta2.

(** ** Sample inputs *)

Definition ex_AB : list byte := ["A"; "B"]%byte.
Definition ex_CABABD : list byte := ["C"; "A"; "B"; "A"; "B"; "D"]%byte.
Definition ex_XYZ : list byte := ["X"; "Y"; "Z"]%byte.
Definition ex_AA : list byte := ["A"; "A"]%byte.
Definition ex_AAAA : list byte := ["A"; "A"; "A"; "A"]%byte.
Definition ex_ABYXCDEYX : list byte :=
  ["A"; "B"; "Y"; "X"; "C"; "D"; "E"; "Y"; "X"]%byte.

Definition ex_ABCAB : list byte := ["A"; "B"; "C"; "A"; "B"]%byte.
Definition ex_dddbcabc : list byte :=
  ["d"; "d"; "d"; "b"; "c"; "a"; "b"; "c"]%byte.

Definition ex_hex_414b : list byte := ["4"; "1"; "4"; "b"]%byte.
Definition ex_hex_4g : list byte := ["4"; "g"]%byte.
Definition ex_bytes_AK : list byte := ["A"; "K"]%byte.


(** The content of a table after the run of a builder on zeroed memory. *)
Definition table_of (m : M (list Z)) : list Z :=
  match result m with
  | Ret d => d
  | _ => []
  end.

Definition ex_AB_delta1 : list Z :=
  Eval vm_compute in table_of (make_delta1 (repeat 0 256) ex_AB 2).
Definition ex_AB_delta2 : list Z :=
  Eval vm_compute in table_of (make_delta2 (repeat 0 2) ex_AB 2).
Definition ex_AA_delta1 : list Z :=
  Eval vm_compute in table_of (make_delta1 (repeat 0 256) ex_AA 2).
Definition ex_AA_delta2 : list Z :=
  Eval vm_compute in table_of (make_delta2 (repeat 0 2) ex_AA 2).

(** ** Properties *)

Hypothesis w_ge : 32 <= w.


(** *** Machine integers *)

Lemma to_int_id z : INT_MIN <= z <= INT_MAX -> to_int z = z.
Proof.
  unfold INT_MIN, INT_MAX, to_int; intros H.
  rewrite Z.mod_small; lia.
Qed.

Lemma int_add_id a b : INT_MIN <= a + b <= INT_MAX -> int_add a b = a + b.
Proof. apply to_int_id. Qed.

Lemma int_sub_id a b : INT_MIN <= a - b <= INT_MAX -> int_sub a b = a - b.
Proof. apply to_int_id. Qed.

(** Remove the conversions to [int] from the goal where the operands are
    seen to be in range. *)
Ltac int_bounds := unfold INT_MIN, INT_MAX, ALPHABET_LEN in *; lia.

Ltac int_norm :=
  repeat match goal with
         | |- context [int_sub ?a ?b] => rewrite (int_sub_id a b) by int_bounds
         | |- context [int_add ?a ?b] => rewrite (int_add_id a b) by int_bounds
         end.

Lemma SIZE_MOD_ge : 2 ^ 32 <= SIZE_MOD.
Proof. unfold SIZE_MOD. apply Z.pow_le_mono_r; lia. Qed.

Lemma PTRDIFF_MAX_room : 2 * PTRDIFF_MAX + 2 = SIZE_MOD /\ 2 ^ 31 - 1 <= PTRDIFF_MAX.
Proof.
  unfold PTRDIFF_MAX, SIZE_MOD. split.
  - replace w with (Z.succ (w - 1)) at 2 by lia.
    rewrite Z.pow_succ_r by lia. lia.
  - assert (2 ^ 31 <= 2 ^ (w - 1)) by (apply Z.pow_le_mono_r; lia). lia.
Qed.

Lemma to_size_id z : 0 <= z < SIZE_MOD -> to_size z = z.
Proof. intros H. unfold to_size. apply Z.mod_small; exact H. Qed.

Lemma NOT_FOUND_eq : NOT_FOUND = SIZE_MOD - 1.
Proof.
  pose proof SIZE_MOD_ge as H. unfold NOT_FOUND, to_size.
  symmetry. apply (Z.mod_unique (-1) SIZE_MOD (-1) (SIZE_MOD - 1)); lia.
Qed.

Lemma to_size_range z : 0 <= to_size z < SIZE_MOD.
Proof.
  pose proof SIZE_MOD_ge as H. unfold to_size. apply Z.mod_pos_bound. lia.
Qed.

(** *** The monad *)

Lemma result_bind {A B} (m : M A) (f : A -> M B) :
  result (bind m f) =
  match result m with
  | Ret a => result (f a)
  | Fault => Fault
  | Timeout => Timeout
  end.
Proof.
  destruct m as [t [a | | ]]; simpl; try reflexivity.
  destruct (f a); reflexivity.
Qed.

Lemma trace_bind {A B} (m : M A) (f : A -> M B) :
  trace (bind m f) =
  match result m with
  | Ret a => trace m ++ trace (f a)
  | _ => trace m
  end.
Proof.
  destruct m as [t [a | | ]]; simpl; try reflexivity.
  destruct (f a); reflexivity.
Qed.

Lemma bind_ret_inv {A B} (m : M A) (f : A -> M B) b :
  result (bind m f) = Ret b ->
  exists a, result m = Ret a /\ result (f a) = Ret b.
Proof.
  rewrite result_bind. destruct (result m) as [a | | ]; try discriminate.
  intros H. exists a. split; [reflexivity | exact H].
Qed.

(** *** Arrays *)

Lemma rd_byte (l : list byte) i :
  0 <= i < zlen l -> rd l i = Some (byte_at l i).
Proof.
  intros H. unfold rd, byte_at.
  destruct (i <? 0) eqn:E; [lia | ].
  apply nth_error_nth'. lia.
Qed.

Lemma rd_int (l : list Z) i :
  0 <= i < zlen l -> rd l i = Some (int_at l i).
Proof.
  intros H. unfold rd, int_at.
  destruct (i <? 0) eqn:E; [lia | ].
  apply nth_error_nth'. lia.
Qed.

Lemma rd_None {A} (l : list A) i :
  ~ 0 <= i < zlen l -> rd l i = None.
Proof.
  intros H. unfold rd.
  destruct (i <? 0) eqn:E; [reflexivity | ].
  apply nth_error_None. lia.
Qed.

Lemma result_load_byte r (l : list byte) i :
  0 <= i < zlen l -> result (load r l i) = Ret (byte_at l i).
Proof. intros H. unfold load, result; simpl. rewrite rd_byte by exact H. reflexivity. Qed.

Lemma result_load_int r (l : list Z) i :
  0 <= i < zlen l -> result (load r l i) = Ret (int_at l i).
Proof. intros H. unfold load, result; simpl. rewrite rd_int by exact H. reflexivity. Qed.

Lemma trace_load {A} r (l : list A) i : trace (load r l i) = [(r, i)].
Proof. reflexivity. Qed.

Lemma length_upd {A} n (v : A) l : length (upd n v l) = length l.
Proof.
  revert n; induction l as [ | x l IH]; intros [ | n]; simpl; try reflexivity.
  now rewrite IH.
Qed.

Lemma nth_upd_eq {A} n (v d : A) l :
  (n < length l)%nat -> nth n (upd n v l) d = v.
Proof.
  revert n; induction l as [ | x l IH]; intros [ | n] H; simpl in *; try lia.
  - reflexivity.
  - apply IH. lia.
Qed.

Lemma nth_upd_neq {A} n k (v d : A) l :
  k <> n -> nth k (upd n v l) d = nth k l d.
Proof.
  revert n k; induction l as [ | x l IH]; intros [ | n] [ | k] H; simpl;
    try reflexivity; try congruence.
  apply IH. congruence.
Qed.

Lemma result_store {A} (l : list A) i v :
  0 <= i < zlen l -> result (store l i v) = Ret (upd (Z.to_nat i) v l).
Proof.
  intros H. unfold store, result, wr; simpl.
  destruct (0 <=? i) eqn:E1; [ | lia].
  destruct (i <? zlen l) eqn:E2; [ | lia].
  reflexivity.
Qed.

Lemma int_at_upd_eq l i v :
  0 <= i < zlen l -> int_at (upd (Z.to_nat i) v l) i = v.
Proof. intros H. unfold int_at. apply nth_upd_eq. lia. Qed.

Lemma int_at_upd_neq l i k v :
  0 <= i -> 0 <= k -> k <> i -> int_at (upd (Z.to_nat i) v l) k = int_at l k.
Proof. intros Hi Hk H. unfold int_at. apply nth_upd_neq. lia. Qed.

Lemma byte_val_range c : 0 <= byte_val c < ALPHABET_LEN.
Proof.
  unfold byte_val, ALPHABET_LEN. pose proof (Byte.to_N_bounded c). lia.
Qed.

Lemma byte_val_inj a b : byte_val a = byte_val b -> a = b.
Proof.
  unfold byte_val. intros H.
  assert (E : Byte.to_N a = Byte.to_N b) by lia.
  pose proof (Byte.of_to_N a) as Ha. pose proof (Byte.of_to_N b) as Hb.
  rewrite E in Ha. congruence.
Qed.

Lemma byte_eqb_eq a b : Byte.eqb a b = true <-> a = b.
Proof.
  split; [apply Byte.byte_dec_bl | apply Byte.byte_dec_lb].
Qed.

Lemma byte_eqb_neq a b : Byte.eqb a b = false <-> a <> b.
Proof.
  split.
  - apply Byte.eqb_false.
  - intros H. destruct (Byte.eqb a b) eqn:E; [ | reflexivity].
    apply byte_eqb_eq in E. contradiction.
Qed.

(** *** The counted loops *)

Lemma for_up_inv {St} (Inv : Z -> St -> Prop) (body : Z -> St -> M St) lo hi :
  INT_MIN <= lo -> hi <= INT_MAX ->
  (forall k s, lo <= k < hi -> Inv k s ->
               exists s', result (body k s) = Ret s' /\ Inv (k + 1) s') ->
  forall n i s, lo <= i <= hi -> (Z.to_nat (hi - i) <= n)%nat -> Inv i s ->
  exists s', result (for_up n i hi body s) = Ret s' /\ Inv hi s'.
Proof.
  intros Hlo Hhi Hbody. induction n as [ | n IH]; intros i s Hi Hn HI.
  - cbn [for_up]. destruct (i <? hi) eqn:E; [lia | ].
    exists s. split; [reflexivity | ]. replace hi with i by lia. exact HI.
  - cbn [for_up]. destruct (i <? hi) eqn:E.
    + destruct (Hbody i s) as [s' [Hs' HI']]; [lia | exact HI | ].
      rewrite result_bind, Hs'.
      rewrite int_add_id by lia.
      apply IH; [lia | lia | exact HI'].
    + exists s. split; [reflexivity | ]. replace hi with i by lia. exact HI.
Qed.

Lemma for_down_inv {St} (Inv : Z -> St -> Prop) (body : Z -> St -> M St) hi :
  hi <= INT_MAX ->
  (forall k s, 0 <= k <= hi -> Inv k s ->
               exists s', result (body k s) = Ret s' /\ Inv (k - 1) s') ->
  forall n p s, -1 <= p <= hi -> (Z.to_nat (p + 1) <= n)%nat -> Inv p s ->
  exists s', result (for_down n p body s) = Ret s' /\ Inv (-1) s'.
Proof.
  intros Hhi Hbody. induction n as [ | n IH]; intros p s Hp Hn HI.
  - cbn [for_down]. destruct (0 <=? p) eqn:E; [lia | ].
    exists s. split; [reflexivity | ]. replace (-1) with p by lia. exact HI.
  - cbn [for_down]. destruct (0 <=? p) eqn:E.
    + destruct (Hbody p s) as [s' [Hs' HI']]; [lia | exact HI | ].
      rewrite result_bind, Hs'.
      rewrite int_sub_id by (unfold INT_MIN; lia).
      apply IH; [lia | lia | exact HI'].
    + exists s. split; [reflexivity | ]. replace (-1) with p by lia. exact HI.
Qed.

(** *** make_delta1 *)

Lemma make_delta1_spec d0 P :
  zlen d0 = ALPHABET_LEN -> 1 <= zlen P <= INT_MAX ->
  exists d1,
    result (make_delta1 d0 P (zlen P)) = Ret d1 /\ zlen d1 = ALPHABET_LEN /\
    forall v, 0 <= v < ALPHABET_LEN ->
      (int_at d1 v = zlen P /\
       forall k, 0 <= k < zlen P - 1 -> byte_val (byte_at P k) <> v) \/
      (exists k, 0 <= k < zlen P - 1 /\ byte_val (byte_at P k) = v /\
                 (forall k', k < k' < zlen P - 1 -> byte_val (byte_at P k') <> v) /\
                 int_at d1 v = zlen P - 1 - k).
Proof.
  intros Hd0 HP. unfold make_delta1.
  set (n := zlen P) in *.
  (* the loop that fills the table with patlen *)
  destruct (for_up_inv
              (fun i d => zlen d = ALPHABET_LEN /\
                          forall c, 0 <= c < i -> int_at d c = n)
              (fun i d => store d i n) 0 ALPHABET_LEN)
    with (n := Z.to_nat ALPHABET_LEN) (i := 0) (s := d0)
    as [da [Hda [Hlen Hall]]].
  - unfold INT_MIN; lia.
  - unfold ALPHABET_LEN, INT_MAX; lia.
  - intros k d Hk [Hl Hc]. exists (upd (Z.to_nat k) n d). split; [ | split].
    + apply result_store. lia.
    + rewrite length_upd. exact Hl.
    + intros c Hck. destruct (Z.eq_dec c k) as [-> | Hne].
      * apply int_at_upd_eq. lia.
      * rewrite int_at_upd_neq by lia. apply Hc. lia.
  - unfold ALPHABET_LEN; lia.
  - unfold ALPHABET_LEN; lia.
  - split; [exact Hd0 | intros c Hc; lia].
  - rewrite result_bind, Hda.
    int_norm.
    (* the loop over pat[0 .. patlen-2] *)
    destruct (for_up_inv
                (fun i d => zlen d = ALPHABET_LEN /\
                   forall v, 0 <= v < ALPHABET_LEN ->
                     (int_at d v = n /\
                      forall k, 0 <= k < i -> byte_val (byte_at P k) <> v) \/
                     (exists k, 0 <= k < i /\ byte_val (byte_at P k) = v /\
                        (forall k', k < k' < i -> byte_val (byte_at P k') <> v) /\
                        int_at d v = n - 1 - k))
                (fun i d => c <- load Rpat P i ;;
                            store d (byte_val c) (int_sub (n - 1) i))
                0 (n - 1))
      with (n := Z.to_nat (n - 1)) (i := 0) (s := da)
      as [d1 [Hd1 [Hlen1 Hent]]].
    + unfold INT_MIN; lia.
    + lia.
    + intros k d Hk [Hl Hinv].
      pose proof (byte_val_range (byte_at P k)) as Hr.
      exists (upd (Z.to_nat (byte_val (byte_at P k))) (n - 1 - k) d).
      split; [ | split].
      * rewrite result_bind, result_load_byte by (fold n; lia).
        int_norm. apply result_store. lia.
      * rewrite length_upd. exact Hl.
      * intros v Hv. destruct (Z.eq_dec v (byte_val (byte_at P k))) as [-> | Hne].
        -- right. exists k. split; [lia | ]. split; [reflexivity | ].
           split; [intros k' Hk'; lia | ].
           apply int_at_upd_eq. lia.
        -- rewrite int_at_upd_neq by lia.
           destruct (Hinv v Hv) as [[Hn Hno] | [k0 [Hk0 [Hb [Hlast Hval]]]]].
           ++ left. split; [exact Hn | ].
              intros k' Hk'. destruct (Z.eq_dec k' k) as [-> | Hkk];
                [congruence | apply Hno; lia].
           ++ right. exists k0. split; [lia | ]. split; [exact Hb | ].
              split; [ | exact Hval].
              intros k' Hk'. destruct (Z.eq_dec k' k) as [-> | Hkk];
                [congruence | apply Hlast; lia].
    + lia.
    + lia.
    + split; [exact Hlen | ]. intros v Hv. left. split; [apply Hall; exact Hv | ].
      intros k Hk; lia.
    + exists d1. split; [exact Hd1 | ]. split; [exact Hlen1 | exact Hent].
Qed.

(** *** is_prefix and suffix_length *)

Lemma suffix_is_prefix_end P : suffix_is_prefix P (zlen P).
Proof. intros i Hi. lia. Qed.

Lemma is_prefix_loop_spec P pos :
  1 <= pos <= zlen P -> zlen P <= INT_MAX ->
  forall fuel i,
    0 <= i <= zlen P - pos -> (Z.to_nat (zlen P - pos - i) <= fuel)%nat ->
    (forall k, 0 <= k < i -> byte_at P k = byte_at P (pos + k)) ->
    exists t, result (is_prefix_loop fuel P pos (zlen P - pos) i) = Ret t /\
              ((t = 1 /\ suffix_is_prefix P pos) \/
               (t = 0 /\ ~ suffix_is_prefix P pos)).
Proof.
  intros Hpos Hmax. induction fuel as [ | fuel IH]; intros i Hi Hf Hk.
  - cbn [is_prefix_loop]. destruct (i <? zlen P - pos) eqn:E; [lia | ].
    exists 1. split; [reflexivity | ]. left. split; [reflexivity | ].
    intros k Hk'. apply Hk. lia.
  - cbn [is_prefix_loop]. destruct (i <? zlen P - pos) eqn:E.
    + int_norm.
      rewrite result_bind, result_load_byte by lia.
      rewrite result_bind, result_load_byte by lia.
      destruct (Byte.eqb (byte_at P i) (byte_at P (pos + i))) eqn:Eb; cbn [negb].
      * apply byte_eqb_eq in Eb. apply IH; [lia | lia | ].
        intros k Hk'. destruct (Z.eq_dec k i) as [-> | Hne];
          [exact Eb | apply Hk; lia].
      * apply byte_eqb_neq in Eb. exists 0. split; [reflexivity | ].
        right. split; [reflexivity | ].
        intros Hpre. apply Eb. apply Hpre. lia.
    + exists 1. split; [reflexivity | ]. left. split; [reflexivity | ].
      intros k Hk'. apply Hk. lia.
Qed.

Lemma is_prefix_spec P pos :
  1 <= pos <= zlen P -> zlen P <= INT_MAX ->
  exists t, result (is_prefix P (zlen P) pos) = Ret t /\
            ((t = 1 /\ suffix_is_prefix P pos) \/
             (t = 0 /\ ~ suffix_is_prefix P pos)).
Proof.
  intros Hpos Hmax. unfold is_prefix. int_norm.
  apply is_prefix_loop_spec; try lia.
Qed.

Lemma suffix_length_loop_spec P pos :
  0 <= pos <= zlen P - 1 -> zlen P <= INT_MAX ->
  forall fuel i,
    0 <= i <= pos -> (Z.to_nat (pos - i) <= fuel)%nat ->
    (forall k, 0 <= k < i -> byte_at P (pos - k) = byte_at P (zlen P - 1 - k)) ->
    exists m, result (suffix_length_loop fuel P (zlen P) pos i) = Ret m /\
              0 <= m <= pos /\
              (forall k, 0 <= k < m ->
                         byte_at P (pos - k) = byte_at P (zlen P - 1 - k)) /\
              (m < pos -> byte_at P (pos - m) <> byte_at P (zlen P - 1 - m)).
Proof.
  intros Hpos Hmax.
  assert (Hstop : forall i,
            0 <= i <= pos ->
            (forall k, 0 <= k < i ->
                       byte_at P (pos - k) = byte_at P (zlen P - 1 - k)) ->
            Byte.eqb (byte_at P (pos - i)) (byte_at P (zlen P - 1 - i)) && (i <? pos)
            = false ->
            0 <= i <= pos /\
            (forall k, 0 <= k < i ->
                       byte_at P (pos - k) = byte_at P (zlen P - 1 - k)) /\
            (i < pos -> byte_at P (pos - i) <> byte_at P (zlen P - 1 - i))).
  { intros i Hi Hk Hc. split; [exact Hi | ]. split; [exact Hk | ].
    intros Hlt. apply andb_false_iff in Hc. destruct Hc as [Hc | Hc].
    - apply byte_eqb_neq. exact Hc.
    - apply Z.ltb_ge in Hc. lia. }
  induction fuel as [ | fuel IH]; intros i Hi Hf Hk; cbn [suffix_length_loop];
    int_norm;
    rewrite result_bind, result_load_byte by lia;
    rewrite result_bind, result_load_byte by lia;
    destruct (Byte.eqb (byte_at P (pos - i)) (byte_at P (zlen P - 1 - i))
              && (i <? pos)) eqn:Ec.
  - apply andb_true_iff in Ec. destruct Ec as [_ Ec]. apply Z.ltb_lt in Ec. lia.
  - exists i. split; [reflexivity | ]. apply Hstop; assumption.
  - apply andb_true_iff in Ec. destruct Ec as [Eb Ec].
    apply Z.ltb_lt in Ec. apply byte_eqb_eq in Eb.
    apply IH; [lia | lia | ].
    intros k Hk'. destruct (Z.eq_dec k i) as [-> | Hne];
      [exact Eb | apply Hk; lia].
  - exists i. split; [reflexivity | ]. apply Hstop; assumption.
Qed.

Lemma suffix_length_spec P pos :
  0 <= pos <= zlen P - 1 -> zlen P <= INT_MAX ->
  exists m, result (suffix_length P (zlen P) pos) = Ret m /\
            0 <= m <= pos /\
            (forall k, 0 <= k < m ->
                       byte_at P (pos - k) = byte_at P (zlen P - 1 - k)) /\
            (m < pos -> byte_at P (pos - m) <> byte_at P (zlen P - 1 - m)).
Proof.
  intros Hpos Hmax. unfold suffix_length.
  apply suffix_length_loop_spec; try lia.
Qed.

(** A shift that keeps the mismatch position inside the pattern is the one
    the second loop of [make_delta2] meets at [p = patlen-1-s]. *)
Lemma compatible_low P j s m :
  1 <= s <= j -> j < zlen P -> compatible P j s ->
  0 <= m <= zlen P - 1 - s ->
  (forall k, 0 <= k < m ->
             byte_at P (zlen P - 1 - s - k) = byte_at P (zlen P - 1 - k)) ->
  (m < zlen P - 1 - s ->
   byte_at P (zlen P - 1 - s - m) <> byte_at P (zlen P - 1 - m)) ->
  m = zlen P - 1 - j /\
  byte_at P (zlen P - 1 - s - m) <> byte_at P (zlen P - 1 - m).
Proof.
  intros Hs Hj [Hsuf Hmis] Hm Hrun Hend.
  assert (E : m = zlen P - 1 - j).
  { destruct (Z.lt_trichotomy m (zlen P - 1 - j)) as [Hlt | [Heq | Hgt]].
    - exfalso. apply Hend; [lia | ].
      replace (zlen P - 1 - s - m) with (zlen P - 1 - m - s) by lia.
      apply Hsuf; lia.
    - exact Heq.
    - exfalso. apply Hmis; [lia | ].
      specialize (Hrun (zlen P - 1 - j)).
      replace (zlen P - 1 - s - (zlen P - 1 - j)) with (j - s) in Hrun by lia.
      replace (zlen P - 1 - (zlen P - 1 - j)) with j in Hrun by lia.
      apply Hrun. lia. }
  split; [exact E | ]. subst m.
  replace (zlen P - 1 - s - (zlen P - 1 - j)) with (j - s) by lia.
  replace (zlen P - 1 - (zlen P - 1 - j)) with j by lia.
  apply Hmis. lia.
Qed.

(** A shift that moves the pattern start past the mismatch position needs a
    suffix of the pattern that is also a prefix. *)
Lemma compatible_high P j s :
  j < s -> 0 <= j -> compatible P j s -> suffix_is_prefix P s.
Proof.
  intros Hs Hj [Hsuf _] i Hi.
  replace i with (s + i - s) at 1 by lia.
  apply Hsuf; lia.
Qed.

(** *** make_delta2 *)

Lemma compatible_of_prefix P j s :
  j < s -> suffix_is_prefix P s -> compatible P j s.
Proof.
  intros Hjs Hpre. split.
  - intros k Hk Hks. rewrite (Hpre (k - s)) by lia. f_equal. lia.
  - intros Hneg. lia.
Qed.

Lemma make_delta2_spec d0 P :
  length d0 = length P -> 1 <= zlen P -> 2 * zlen P - 1 <= INT_MAX ->
  exists d2,
    result (make_delta2 d0 P (zlen P)) = Ret d2 /\ length d2 = length P /\
    forall j, 0 <= j < zlen P ->
      zlen P - j <= int_at d2 j <= 2 * zlen P - 1 /\
      (forall s, 1 <= s -> s + (zlen P - 1 - j) < int_at d2 j ->
                 ~ compatible P j s) /\
      compatible P j (int_at d2 j - (zlen P - 1 - j)).
Proof.
  intros Hd0 Hn Hmax. unfold make_delta2. cbv zeta.
  set (n := zlen P) in *.
  assert (Hn' : n <= INT_MAX) by lia.
  int_norm. rewrite result_bind.
  (* first loop *)
  match goal with
  | |- context [for_down ?fuel ?p0 ?body ?s0] =>
      destruct (for_down_inv
        (fun p '(L, d) =>
           length d = length P /\ 0 <= L <= n /\
           (p < n - 1 ->
            p + 2 <= L /\ suffix_is_prefix P L /\
            forall x, p + 2 <= x < L -> ~ suffix_is_prefix P x) /\
           forall q, p < q < n ->
             exists Lq, q + 1 <= Lq <= n /\ suffix_is_prefix P Lq /\
                        (forall x, q < x < Lq -> ~ suffix_is_prefix P x) /\
                        int_at d q = Lq + (n - 1 - q))
        body (n - 1) ltac:(lia)) with (n := fuel) (p := p0) (s := s0)
        as [[L1 da] [Hda [Hlen [_ [_ Hfirst]]]]]
  end.
  - intros k [L d] Hk [Hl [HL [Hmin Hent]]]. cbv beta iota.
    destruct (is_prefix_spec P (k + 1)) as [t [Ht Hcase]]; [lia | lia | ].
    fold n in Ht. int_norm. rewrite result_bind, Ht.
    assert (Hstore : forall L',
              k + 1 <= L' <= n -> suffix_is_prefix P L' ->
              (forall x, k < x < L' -> ~ suffix_is_prefix P x) ->
              exists s',
                result (delta2 <- store d k (int_add L' (n - 1 - k)) ;;
                        ret (L', delta2)) = Ret s' /\
                (let '(L, d) := s' in
                 length d = length P /\ 0 <= L <= n /\
                 (k - 1 < n - 1 ->
                  k - 1 + 2 <= L /\ suffix_is_prefix P L /\
                  forall x, k - 1 + 2 <= x < L -> ~ suffix_is_prefix P x) /\
                 forall q, k - 1 < q < n ->
                   exists Lq, q + 1 <= Lq <= n /\ suffix_is_prefix P Lq /\
                              (forall x, q < x < Lq -> ~ suffix_is_prefix P x) /\
                              int_at d q = Lq + (n - 1 - q))).
    { intros L' HL' HpreL Hno. int_norm.
      rewrite result_bind, result_store by lia.
      eexists. split; [reflexivity | ]. cbv beta iota.
      split; [rewrite length_upd; exact Hl | ]. split; [lia | ]. split.
      - intros _. split; [lia | ]. split; [exact HpreL | ].
        intros x Hx. apply Hno. lia.
      - intros q Hq. destruct (Z.eq_dec q k) as [-> | Hne].
        + exists L'. split; [lia | ]. split; [exact HpreL | ].
          split; [exact Hno | ]. apply int_at_upd_eq. lia.
        + rewrite int_at_upd_neq by lia. apply Hent. lia. }
    destruct Hcase as [[-> Hpre] | [-> Hpre]].
    + change (negb (1 =? 0)) with true. cbv iota.
      apply Hstore; [lia | exact Hpre | intros x Hx; lia].
    + change (negb (0 =? 0)) with false. cbv iota.
      assert (Hk' : k < n - 1).
      { destruct (Z.eq_dec k (n - 1)) as [E | E]; [ | lia].
        exfalso. apply Hpre. replace (k + 1) with n by lia.
        apply suffix_is_prefix_end. }
      destruct (Hmin Hk') as [HL2 [HpreL Hno]].
      apply Hstore; [lia | exact HpreL | ].
      intros x Hx. destruct (Z.eq_dec x (k + 1)) as [-> | Hne];
        [exact Hpre | apply Hno; lia].
  - lia.
  - lia.
  - cbv beta iota. split; [exact Hd0 | ]. split; [lia | ].
    split; [intros; lia | intros q Hq; lia].
  - rewrite Hda. cbv beta iota.
    (* second loop *)
    match goal with
    | |- context [for_up ?fuel ?i0 ?hi ?body ?s0] =>
        destruct (for_up_inv
          (fun p d =>
             length d = length P /\
             forall j, 0 <= j < n ->
               1 <= int_at d j - (n - 1 - j) <= n /\
               (forall x, j < x < int_at d j - (n - 1 - j) ->
                          ~ suffix_is_prefix P x) /\
               (forall s, 1 <= s <= j -> s < int_at d j - (n - 1 - j) ->
                          compatible P j s -> p <= n - 1 - s) /\
               compatible P j (int_at d j - (n - 1 - j)))
          body 0 hi) with (n := fuel) (i := i0) (s := s0)
          as [d2 [Hd2 [Hlen2 Hsecond]]]
    end.
    + unfold INT_MIN; lia.
    + lia.
    + intros k d Hk [Hl Hinv].
      destruct (suffix_length_spec P k) as [m [Hm [Hm1 [Hm2 Hm3]]]];
        [lia | lia | ]. fold n in Hm, Hm2, Hm3.
      rewrite result_bind, Hm. int_norm.
      rewrite result_bind, result_load_byte by lia.
      rewrite result_bind, result_load_byte by lia.
      assert (Hlow : forall j s, 0 <= j < n -> 1 <= s <= j ->
                compatible P j s -> k = n - 1 - s ->
                m = n - 1 - j /\ byte_at P (k - m) <> byte_at P (n - 1 - m)).
      { intros j s Hj Hs Hc ->. unfold n. apply compatible_low.
        - exact Hs.
        - lia.
        - exact Hc.
        - lia.
        - exact Hm2.
        - exact Hm3. }
      destruct (Byte.eqb (byte_at P (k - m)) (byte_at P (n - 1 - m))) eqn:Eb;
        cbn [negb].
      * apply byte_eqb_eq in Eb. exists d. split; [reflexivity | ].
        split; [exact Hl | ]. intros j Hj.
        destruct (Hinv j Hj) as [H1 [H2 [H3 H4]]].
        split; [exact H1 | ]. split; [exact H2 | ]. split; [ | exact H4].
        intros s Hs Hlt Hc. specialize (H3 s Hs Hlt Hc).
        destruct (Z.eq_dec k (n - 1 - s)) as [E | E]; [ | lia].
        exfalso. destruct (Hlow j s Hj Hs Hc E) as [_ Hne]. apply Hne. exact Eb.
      * apply byte_eqb_neq in Eb.
        rewrite result_store by lia.
        eexists. split; [reflexivity | ].
        split; [rewrite length_upd; exact Hl | ]. intros j Hj.
        destruct (Z.eq_dec j (n - 1 - m)) as [-> | Hjm].
        -- rewrite int_at_upd_eq by lia.
           split; [lia | ]. split; [intros x Hx; lia | ].
           split; [intros s Hs Hlt Hc; lia | ].
           replace (n - 1 - k + m - (n - 1 - (n - 1 - m))) with (n - 1 - k)
             by lia.
           split.
           ++ intros k' Hk' Hks.
              replace (k' - (n - 1 - k)) with (k - (n - 1 - k')) by lia.
              replace (byte_at P k') with (byte_at P (n - 1 - (n - 1 - k')))
                by (f_equal; lia).
              apply Hm2. lia.
           ++ intros _.
              replace (n - 1 - m - (n - 1 - k)) with (k - m) by lia.
              exact Eb.
        -- rewrite int_at_upd_neq by lia.
           destruct (Hinv j Hj) as [H1 [H2 [H3 H4]]].
           split; [exact H1 | ]. split; [exact H2 | ]. split; [ | exact H4].
           intros s Hs Hlt Hc. specialize (H3 s Hs Hlt Hc).
           destruct (Z.eq_dec k (n - 1 - s)) as [E | E]; [ | lia].
           exfalso. destruct (Hlow j s Hj Hs Hc E) as [Hmj _]. lia.
    + lia.
    + lia.
    + split; [exact Hlen | ]. intros j Hj.
      destruct (Hfirst j) as [Lq [HLq [HpreL [Hno Hval]]]]; [lia | ].
      rewrite Hval.
      replace (Lq + (n - 1 - j) - (n - 1 - j)) with Lq by lia.
      split; [lia | ]. split; [intros x Hx; apply Hno; lia | ].
      split; [intros s Hs Hlt Hc; lia | ].
      apply compatible_of_prefix; [lia | exact HpreL].
    + exists d2. split; [exact Hd2 | ]. split; [exact Hlen2 | ].
      intros j Hj. destruct (Hsecond j Hj) as [H1 [H2 [H3 H4]]].
      split; [lia | ]. split; [ | exact H4]. intros s Hs Hlt Hc.
      destruct (Z_le_gt_dec s j) as [Hsj | Hsj].
      * specialize (H3 s ltac:(lia) ltac:(lia) Hc). lia.
      * apply (H2 s); [lia | ]. apply (compatible_high P j); [lia | lia | exact Hc].
Qed.

(** *** The tables [make_delta1] and [make_delta2] build are the ones the
    scanner needs *)

Lemma make_tables_ok d1_0 d2_0 P d1 d2 :
  zlen d1_0 = ALPHABET_LEN -> length d2_0 = length P ->
  1 <= zlen P -> 2 * zlen P - 1 <= INT_MAX ->
  result (make_delta1 d1_0 P (zlen P)) = Ret d1 ->
  result (make_delta2 d2_0 P (zlen P)) = Ret d2 ->
  tables_ok P d1 d2.
Proof.
  intros H1 H2 Hn Hmax R1 R2.
  destruct (make_delta1_spec d1_0 P H1) as [d1' [R1' [Hl1 He1]]]; [lia | ].
  destruct (make_delta2_spec d2_0 P H2 Hn Hmax) as [d2' [R2' [Hl2 He2]]].
  rewrite R1 in R1'. rewrite R2 in R2'.
  injection R1' as <-. injection R2' as <-.
  unfold tables_ok. split; [exact Hl1 | ]. split; [exact Hl2 | ].
  split; [ | split].
  - intros c.
    destruct (He1 (byte_val c) (byte_val_range c))
      as [[Hv _] | [k [Hk [_ [_ Hv]]]]]; lia.
  - intros k Hk.
    destruct (He1 (byte_val (byte_at P k)) (byte_val_range _))
      as [[_ Hno] | [k0 [Hk0 [_ [Hlast Hv]]]]].
    + exfalso. apply (Hno k Hk). reflexivity.
    + destruct (Z_le_gt_dec k k0) as [Hle | Hgt]; [lia | ].
      exfalso. apply (Hlast k); [lia | reflexivity].
  - intros j Hj. destruct (He2 j Hj) as [Hr [Hsafe _]]. split; assumption.
Qed.

(** *** bm_search *)

Lemma to_size_add_l x y : to_size (to_size x + y) = to_size (x + y).
Proof.
  pose proof SIZE_MOD_ge. unfold to_size. apply Z.add_mod_idemp_l. lia.
Qed.

Lemma bm_match_spec B P a :
  0 <= a -> a + zlen P <= zlen B -> zlen P <= INT_MAX -> zlen B < SIZE_MOD ->
  forall fuel j,
    -1 <= j < zlen P ->
    (forall k, j < k < zlen P -> byte_at B (a + k) = byte_at P k) ->
    Forall (in_bounds B P) (trace (bm_match fuel B P (to_size (a + j)) j)) /\
    match result (bm_match fuel B P (to_size (a + j)) j) with
    | Ret (i', j') =>
        -1 <= j' <= j /\ i' = to_size (a + j') /\
        (forall k, j' < k < zlen P -> byte_at B (a + k) = byte_at P k) /\
        (0 <= j' -> byte_at B (a + j') <> byte_at P j')
    | Fault => False
    | Timeout => Z.of_nat fuel < j + 2
    end.
Proof.
  intros Ha Hfit Hmax HB.
  induction fuel as [ | fuel IH]; intros j Hj Hk; cbn [bm_match].
  - split; [constructor | ]. cbn. lia.
  - destruct (0 <=? j) eqn:E.
    + rewrite (to_size_id (a + j)) by lia.
      rewrite trace_bind, result_bind, result_load_byte by lia.
      rewrite trace_bind, result_bind, result_load_byte by lia.
      rewrite !trace_load.
      destruct (Byte.eqb (byte_at B (a + j)) (byte_at P j)) eqn:Eb.
      * apply byte_eqb_eq in Eb. int_norm.
        replace (to_size (a + j - 1)) with (to_size (a + (j - 1)))
          by (f_equal; lia).
        destruct (IH (j - 1)) as [Htr Hres]; [lia | | ].
        { intros k Hk'. destruct (Z.eq_dec k j) as [-> | Hne];
            [exact Eb | apply Hk; lia]. }
        split.
        -- constructor; [cbn; lia | ]. constructor; [cbn; lia | exact Htr].
        -- destruct (result (bm_match fuel B P (to_size (a + (j - 1))) (j - 1)))
             as [[i' j'] | | ]; [ | exact Hres | lia].
           destruct Hres as [H1 [H2 [H3 H4]]].
           split; [lia | ]. split; [exact H2 | ]. split; assumption.
      * apply byte_eqb_neq in Eb. split.
        -- constructor; [cbn; lia | ]. constructor; [cbn; lia | constructor].
        -- cbn. split; [lia | ]. split; [symmetry; apply to_size_id; lia | ].
           split; [exact Hk | intros _; exact Eb].
    + split; [constructor | ]. cbn.
      split; [lia | ]. split; [reflexivity | ]. split; [exact Hk | lia].
Qed.

(** The shift taken after a mismatch passes over no occurrence. *)
Lemma shift_safe B P d1 d2 a j shift :
  tables_ok P d1 d2 ->
  0 <= a -> a + zlen P <= zlen B -> 0 <= j < zlen P ->
  (forall k, j < k < zlen P -> byte_at B (a + k) = byte_at P k) ->
  byte_at B (a + j) <> byte_at P j ->
  shift = int_at d1 (byte_val (byte_at B (a + j))) \/ shift = int_at d2 j ->
  forall o, occurs_at B P o -> a <= o -> a + j + shift <= o + zlen P - 1.
Proof.
  intros [_ [_ [Hd1 [Hocc Hd2]]]] Ha Hfit Hj Hsuf Hmis Hshift o [Ho [Hofit Heq]] Hao.
  destruct (Z_le_gt_dec (a + j + shift) (o + zlen P - 1)) as [Hle | Hgt];
    [exact Hle | exfalso].
  destruct (Z.eq_dec o a) as [-> | Hne].
  { apply Hmis. apply Heq. lia. }
  remember (o - a) as s eqn:Es.
  assert (Hs : 1 <= s) by lia.
  assert (Hcomp : compatible P j s).
  { split.
    - intros k Hk Hks. rewrite <- (Hsuf k) by lia.
      rewrite <- (Heq (k - s)) by lia. f_equal. lia.
    - intros Hjs E. apply Hmis. rewrite <- E.
      rewrite <- (Heq (j - s)) by lia. f_equal. lia. }
  destruct Hshift as [-> | ->].
  - destruct (Z_le_gt_dec 0 (j - s)) as [Hjs | Hjs].
    + specialize (Hocc (j - s) ltac:(lia)).
      replace (byte_at P (j - s)) with (byte_at B (a + j)) in Hocc.
      * lia.
      * rewrite <- (Heq (j - s)) by lia. f_equal. lia.
    + specialize (Hd1 (byte_at B (a + j))). lia.
  - destruct (Hd2 j Hj) as [_ Hsafe].
    apply (Hsafe s Hs); [lia | exact Hcomp].
Qed.

Lemma max_shift_spec B P d1 d2 i j :
  0 <= i < zlen B -> 0 <= j < zlen P ->
  zlen d1 = ALPHABET_LEN -> length d2 = length P ->
  exists shift,
    result (max (c <- load Rstring B i ;; load Rdelta1 d1 (byte_val c))
                (load Rdelta2 d2 j)) = Ret shift /\
    (shift = int_at d1 (byte_val (byte_at B i)) \/ shift = int_at d2 j) /\
    int_at d2 j <= shift /\ int_at d1 (byte_val (byte_at B i)) <= shift /\
    Forall (in_bounds B P)
      (trace (max (c <- load Rstring B i ;; load Rdelta1 d1 (byte_val c))
                  (load Rdelta2 d2 j))).
Proof.
  intros Hi Hj Hl1 Hl2.
  pose proof (byte_val_range (byte_at B i)) as Hc.
  set (a := c <- load Rstring B i ;; load Rdelta1 d1 (byte_val c)).
  set (b := load Rdelta2 d2 j).
  assert (Ra : result a = Ret (int_at d1 (byte_val (byte_at B i)))).
  { unfold a. rewrite result_bind, result_load_byte by lia.
    apply result_load_int. lia. }
  assert (Ta : Forall (in_bounds B P) (trace a)).
  { unfold a. rewrite trace_bind, result_load_byte by lia.
    rewrite !trace_load. constructor; [cbn; lia | ].
    constructor; [exact Hc | constructor]. }
  assert (Rb : result b = Ret (int_at d2 j)).
  { unfold b. apply result_load_int. lia. }
  assert (Tb : Forall (in_bounds B P) (trace b)).
  { unfold b. rewrite trace_load. constructor; [cbn; lia | constructor]. }
  unfold max.
  rewrite !trace_bind, !result_bind, Ra. rewrite !trace_bind, !result_bind, Rb.
  destruct (int_at d1 (byte_val (byte_at B i)) <? int_at d2 j) eqn:E.
  - exists (int_at d2 j). split; [exact Rb | ]. split; [right; reflexivity | ].
    split; [lia | ]. split; [lia | ].
    repeat (apply Forall_app; split); assumption.
  - exists (int_at d1 (byte_val (byte_at B i))). split; [exact Ra | ].
    split; [left; reflexivity | ]. split; [lia | ]. split; [lia | ].
    repeat (apply Forall_app; split); assumption.
Qed.

Lemma bm_scan_spec B P d1 d2 :
  tables_ok P d1 d2 ->
  1 <= zlen P -> 2 * zlen P - 1 <= INT_MAX -> zlen B <= PTRDIFF_MAX ->
  forall fuel i,
    zlen P - 1 <= i <= zlen B + INT_MAX ->
    (forall o, occurs_at B P o -> i <= o + zlen P - 1) ->
    Forall (in_bounds B P)
      (trace (bm_scan fuel B (zlen B) P (zlen P) d1 d2 i)) /\
    match result (bm_scan fuel B (zlen B) P (zlen P) d1 d2 i) with
    | Ret (Matched o) =>
        occurs_at B P o /\ forall o', occurs_at B P o' -> o <= o'
    | Ret Exhausted => forall o, ~ occurs_at B P o
    | Fault => False
    | Timeout => Z.of_nat fuel < Z.max 0 (zlen B - i) + zlen P + 2
    end.
Proof.
  intros Htab Hn Hmax HB.
  pose proof PTRDIFF_MAX_room as [Hroom1 Hroom2].
  assert (Hmod : zlen B + INT_MAX < SIZE_MOD) by (unfold INT_MAX in *; lia).
  induction fuel as [ | fuel IH]; intros i Hi Hpre; cbn [bm_scan].
  - split; [constructor | ]. cbn. lia.
  - destruct (i <? zlen B) eqn:E.
    + rewrite (to_size_id (zlen P - 1)) by (unfold INT_MAX in *; lia).
      rewrite (to_int_id (zlen P - 1)) by int_bounds.
      destruct (bm_match_spec B P (i - (zlen P - 1))) with (fuel := fuel)
        (j := zlen P - 1) as [Htr Hres];
        try (unfold INT_MAX in *; lia).
      replace (i - (zlen P - 1) + (zlen P - 1)) with i in Htr, Hres by lia.
      rewrite (to_size_id i) in Htr, Hres by (unfold INT_MAX in *; lia).
      rewrite trace_bind, result_bind.
      destruct (result (bm_match fuel B P i (zlen P - 1))) as [[i' j'] | | ].
      * destruct Hres as [Hj' [Hi' [Hsuf Hmis]]]. cbv beta iota.
        destruct (j' <? 0) eqn:Ej.
        -- assert (j' = -1) by lia. subst j'.
           split; [cbn; rewrite app_nil_r; exact Htr | ].
           cbn [result ret snd]. rewrite Hi', to_size_add_l.
           replace (i - (zlen P - 1) + -1 + 1) with (i - (zlen P - 1)) by lia.
           rewrite to_size_id by lia. split.
           ++ split; [lia | ]. split; [lia | ]. intros k Hk. apply Hsuf. lia.
           ++ intros o' Ho'. specialize (Hpre o' Ho'). lia.
        -- specialize (Hmis ltac:(lia)).
           rewrite to_size_id in Hi' by lia.
           destruct Htab as [Hl1 [Hl2 Htab']].
           destruct (max_shift_spec B P d1 d2 i' j')
             as [shift [Rs [Hor [Hge2 [Hge1 Ts]]]]]; try lia.
           rewrite trace_bind, result_bind, Rs.
           assert (Hd2 : zlen P - j' <= int_at d2 j' <= 2 * zlen P - 1).
           { destruct Htab' as [_ [_ H2]]. apply (H2 j'). lia. }
           assert (Hd1 : 1 <= int_at d1 (byte_val (byte_at B i')) <= zlen P).
           { destruct Htab' as [H1 _]. apply H1. }
           assert (Hshift : zlen P - j' <= shift <= 2 * zlen P - 1).
           { destruct Hor as [-> | ->]; lia. }
           rewrite to_size_id by (unfold INT_MAX in *; lia).
           destruct (IH (i' + shift)) as [Htr' Hres'].
           { unfold INT_MAX in *; lia. }
           { intros o Ho.
             destruct (Z_le_gt_dec (i - (zlen P - 1)) o) as [Hle | Hgt].
             - subst i'.
               apply (shift_safe B P d1 d2 (i - (zlen P - 1)) j' shift);
                 try assumption; try lia.
               split; [exact Hl1 | split; [exact Hl2 | exact Htab']].
             - specialize (Hpre o Ho). lia. }
           split.
           ++ repeat (apply Forall_app; split); assumption.
           ++ destruct (result (bm_scan fuel B (zlen B) P (zlen P) d1 d2
                                  (i' + shift))) as [[o | ] | | ];
                try exact Hres'. lia.
      * destruct Hres.
      * split; [exact Htr | lia].
    + split; [constructor | ]. cbn.
      intros o Ho. specialize (Hpre o Ho). destruct Ho as [Ho1 [Ho2 _]]. lia.
Qed.

Lemma bm_search_exit_spec B P d1 d2 fuel :
  tables_ok P d1 d2 ->
  1 <= zlen P -> 2 * zlen P - 1 <= INT_MAX -> zlen B <= PTRDIFF_MAX ->
  Forall (in_bounds B P)
    (trace (bm_search_exit fuel B (zlen B) P (zlen P) d1 d2)) /\
  match result (bm_search_exit fuel B (zlen B) P (zlen P) d1 d2) with
  | Ret (Matched o) =>
      occurs_at B P o /\ forall o', occurs_at B P o' -> o <= o'
  | Ret Exhausted => forall o, ~ occurs_at B P o
  | Fault => False
  | Timeout => Z.of_nat fuel < zlen B + zlen P + 2
  end.
Proof.
  intros Htab Hn Hmax HB. unfold bm_search_exit.
  pose proof SIZE_MOD_ge as Hmod.
  rewrite to_size_id by (unfold INT_MAX in *; lia).
  destruct (bm_scan_spec B P d1 d2 Htab Hn Hmax HB fuel (zlen P - 1))
    as [Htr Hres].
  - unfold INT_MAX in *; lia.
  - intros o [Ho _]. lia.
  - split; [exact Htr | ].
    destruct (result (bm_scan fuel B (zlen B) P (zlen P) d1 d2 (zlen P - 1)))
      as [[o | ] | | ]; try exact Hres. lia.
Qed.

Lemma result_bm_search fuel B sl P pl d1 d2 :
  result (bm_search fuel B sl P pl d1 d2) =
  match result (bm_search_exit fuel B sl P pl d1 d2) with
  | Ret e => Ret (exit_value e)
  | Fault => Fault
  | Timeout => Timeout
  end.
Proof. unfold bm_search. rewrite result_bind. reflexivity. Qed.

Lemma trace_bm_search fuel B sl P pl d1 d2 :
  trace (bm_search fuel B sl P pl d1 d2) =
  trace (bm_search_exit fuel B sl P pl d1 d2).
Proof.
  unfold bm_search. rewrite trace_bind.
  destruct (result (bm_search_exit fuel B sl P pl d1 d2)); try reflexivity.
  cbn. apply app_nil_r.
Qed.

(** **** The scanner with tables of any content *)

Lemma load_byte_inv r (l : list byte) i a :
  result (load r l i) = Ret a -> 0 <= i < zlen l /\ a = byte_at l i.
Proof.
  unfold load, result; cbn [snd]. intros H.
  destruct (Z_lt_dec i 0) as [Hi | Hi];
    [rewrite rd_None in H by lia; discriminate | ].
  destruct (Z_lt_dec i (zlen l)) as [Hi' | Hi'];
    [ | rewrite rd_None in H by lia; discriminate].
  rewrite rd_byte in H by lia. split; [lia | congruence].
Qed.

Lemma to_size_sub_l x y : to_size (to_size x - y) = to_size (x - y).
Proof.
  pose proof SIZE_MOD_ge. unfold to_size. apply Zminus_mod_idemp_l.
Qed.

Lemma bm_match_any B P :
  zlen B < SIZE_MOD ->
  forall fuel i j i' j',
    0 <= i < SIZE_MOD -> -1 <= j <= INT_MAX ->
    result (bm_match fuel B P i j) = Ret (i', j') ->
    -1 <= j' <= j /\ i' = to_size (i - (j - j')) /\
    (forall k, j' < k <= j ->
               0 <= i - (j - k) < zlen B /\ 0 <= k < zlen P /\
               byte_at B (i - (j - k)) = byte_at P k) /\
    (0 <= j' -> 0 <= i - (j - j') < zlen B /\ j' < zlen P /\
                byte_at B (i - (j - j')) <> byte_at P j').
Proof.
  intros HB. induction fuel as [ | fuel IH]; intros i j i' j' Hi Hj;
    cbn [bm_match]; [discriminate | ].
  destruct (0 <=? j) eqn:E.
  - intros H.
    apply bind_ret_inv in H. destruct H as [a [Ha H]].
    apply bind_ret_inv in H. destruct H as [b [Hb H]].
    apply load_byte_inv in Ha. destruct Ha as [Hia ->].
    apply load_byte_inv in Hb. destruct Hb as [Hjb ->].
    destruct (Byte.eqb (byte_at B i) (byte_at P j)) eqn:Eb.
    + apply byte_eqb_eq in Eb.
      rewrite int_sub_id in H by int_bounds.
      apply IH in H; [ | apply to_size_range | lia].
      destruct H as [H1 [H2 [H3 H4]]].
      rewrite to_size_sub_l in H2.
      destruct (Z.eq_dec i 0) as [-> | Hi0].
      * (* the cursor wrapped: nothing more can have been read *)
        assert (Ew : to_size (0 - 1) = SIZE_MOD - 1) by apply NOT_FOUND_eq.
        rewrite Ew in H3, H4.
        assert (Hj' : j' = j - 1).
        { destruct (Z.eq_dec j' (j - 1)) as [e | ne]; [exact e | ].
          destruct (H3 (j - 1)) as [Hbad _]; lia. }
        subst j'.
        assert (j = 0).
        { destruct (Z_lt_dec (j - 1) 0) as [e | ne]; [lia | ].
          destruct H4 as [Hbad _]; lia. }
        subst j. split; [lia | ]. split; [rewrite H2; f_equal; lia | ].
        split.
        -- intros k Hk. assert (k = 0) by lia. subst k.
           replace (0 - (0 - 0)) with 0 by lia.
           split; [lia | ]. split; [lia | exact Eb].
        -- intros Hneg; lia.
      * rewrite (to_size_id (i - 1)) in H3, H4 by lia.
        split; [lia | ]. split; [rewrite H2; f_equal; lia | ]. split.
        -- intros k Hk. destruct (Z.eq_dec k j) as [-> | Hkj].
           ++ replace (i - (j - j)) with i by lia.
              split; [lia | ]. split; [lia | exact Eb].
           ++ replace (i - (j - k)) with (i - 1 - (j - 1 - k)) by lia.
              apply H3. lia.
        -- intros Hj'.
           replace (i - (j - j')) with (i - 1 - (j - 1 - j')) by lia.
           apply H4. exact Hj'.
    + apply byte_eqb_neq in Eb. cbn in H. injection H as <- <-.
      replace (i - (j - j)) with i by lia.
      split; [lia | ]. split; [symmetry; apply to_size_id; lia | ]. split.
      * intros k Hk; lia.
      * intros _. split; [lia | ]. split; [lia | exact Eb].
  - cbn. intros H. injection H as <- <-.
    replace (i - (j - j)) with i by lia.
    split; [lia | ]. split; [symmetry; apply to_size_id; lia | ]. split.
    + intros k Hk; lia.
    + intros Hneg; lia.
Qed.

Lemma bm_scan_any B P d1 d2 o :
  zlen B < SIZE_MOD -> 1 <= zlen P <= INT_MAX ->
  forall fuel i,
    0 <= i < SIZE_MOD ->
    result (bm_scan fuel B (zlen B) P (zlen P) d1 d2 i) = Ret (Matched o) ->
    occurs_at B P o.
Proof.
  intros HB HP. pose proof SIZE_MOD_ge as Hmod.
  induction fuel as [ | fuel IH]; intros i Hi; cbn [bm_scan];
    [discriminate | ].
  destruct (i <? zlen B) eqn:E; [ | discriminate].
  rewrite (to_size_id (zlen P - 1)) by (unfold INT_MAX in *; lia).
  rewrite (to_int_id (zlen P - 1)) by int_bounds.
  intros H. apply bind_ret_inv in H. destruct H as [[i' j'] [Hm H]].
  apply bm_match_any in Hm; [ | exact HB | exact Hi | lia].
  destruct Hm as [Hj' [Hi' [Hall Hmis]]].
  destruct (j' <? 0) eqn:Ej.
  - assert (j' = -1) by lia. subst j'.
    cbn in H. injection H as <-.
    rewrite Hi', to_size_add_l.
    destruct (Hall 0) as [H0 _]; [lia | ].
    replace (i - (zlen P - 1 - -1) + 1) with (i - (zlen P - 1)) by lia.
    rewrite to_size_id by lia.
    split; [lia | ]. split; [lia | ].
    intros k Hk. destruct (Hall k) as [_ [_ Hb]]; [lia | ].
    rewrite <- Hb. f_equal. lia.
  - apply bind_ret_inv in H. destruct H as [shift [_ H]].
    apply IH in H; [exact H | apply to_size_range].
Qed.

(** *** Occurrences, slices and the naive searches *)

Lemma starts_with_firstn T P :
  starts_with T P = true <-> firstn (length P) T = P.
Proof.
  revert T. induction P as [ | p P IH]; intros T.
  - split; reflexivity.
  - destruct T as [ | c T]; cbn [starts_with length firstn].
    + split; discriminate.
    + rewrite andb_true_iff, byte_eqb_eq, IH. split.
      * intros [-> ->]. reflexivity.
      * intros H. injection H as -> H. split; [reflexivity | exact H].
Qed.

Lemma starts_with_nth T P :
  starts_with T P = true <->
  (length P <= length T)%nat /\
  forall k, (k < length P)%nat -> nth k T "000"%byte = nth k P "000"%byte.
Proof.
  revert T. induction P as [ | p P IH]; intros T.
  - split; [intros _ | reflexivity].
    split; [cbn; lia | intros k Hk; cbn in Hk; lia].
  - destruct T as [ | c T]; cbn [starts_with length].
    + split; [discriminate | intros [H _]; lia].
    + rewrite andb_true_iff, byte_eqb_eq, IH. split.
      * intros [-> [Hl Hk]]. split; [lia | ].
        intros [ | k] Hk'; [reflexivity | ]. cbn. apply Hk. lia.
      * intros [Hl Hk]. split; [exact (Hk O ltac:(lia)) | ].
        split; [lia | ]. intros k Hk'. apply (Hk (S k)). lia.
Qed.

Lemma occurs_at_starts_with B P o :
  1 <= zlen P -> 0 <= o ->
  (occurs_at B P o <-> starts_with (skipn (Z.to_nat o) B) P = true).
Proof.
  intros HP Ho. rewrite starts_with_nth, length_skipn. unfold occurs_at, byte_at.
  split.
  - intros [_ [Hfit Heq]]. split; [lia | ].
    intros k Hk. rewrite nth_skipn.
    specialize (Heq (Z.of_nat k) ltac:(lia)).
    rewrite Nat2Z.id in Heq. rewrite <- Heq. f_equal. lia.
  - intros [Hl Heq]. split; [exact Ho | ]. split; [lia | ].
    intros k Hk. specialize (Heq (Z.to_nat k) ltac:(lia)).
    rewrite nth_skipn in Heq. rewrite <- Heq. f_equal. lia.
Qed.

Lemma occurs_at_slice B P o :
  1 <= zlen P -> 0 <= o ->
  (occurs_at B P o <-> slice B o (length P) = P).
Proof.
  intros HP Ho. rewrite occurs_at_starts_with by assumption.
  apply starts_with_firstn.
Qed.

Lemma naive_search_None T P :
  (forall k, starts_with (skipn k T) P = false) -> naive_search T P = None.
Proof.
  induction T as [ | c T IH]; intros H; cbn [naive_search].
  - pose proof (H O) as H0. cbn [skipn] in H0. rewrite H0. reflexivity.
  - pose proof (H O) as H0. cbn [skipn] in H0. rewrite H0.
    rewrite IH; [reflexivity | ].
    intros k. exact (H (S k)).
Qed.

Lemma naive_search_Some T P k :
  starts_with (skipn k T) P = true ->
  (forall k', (k' < k)%nat -> starts_with (skipn k' T) P = false) ->
  naive_search T P = Some k.
Proof.
  revert T. induction k as [ | k IH]; intros T Hk Hlt.
  - cbn [skipn] in Hk. destruct T; cbn [naive_search]; rewrite Hk; reflexivity.
  - destruct T as [ | c T].
    + exfalso. specialize (Hlt O ltac:(lia)). cbn [skipn] in Hk, Hlt. congruence.
    + cbn [naive_search]. pose proof (Hlt O ltac:(lia)) as H0; cbn [skipn] in H0; rewrite H0.
      rewrite (IH T); [reflexivity | exact Hk | ].
      intros k' Hk'. apply (Hlt (S k')). lia.
Qed.

(** Skipping the bytes covered by a match. *)
Lemma naive_scan_skip P m :
  forall T pos, (m <= length T)%nat ->
    naive_scan T P pos m = naive_scan (skipn m T) P (pos + m) O.
Proof.
  induction m as [ | m IH]; intros T pos Hm.
  - cbn [skipn]. rewrite Nat.add_0_r. reflexivity.
  - destruct T as [ | c T]; [cbn in Hm; lia | ].
    cbn [naive_scan skipn]. rewrite IH by (cbn in Hm; lia).
    f_equal. lia.
Qed.

Lemma naive_scan_none P :
  forall T pos, (forall k, starts_with (skipn k T) P = false) ->
    naive_scan T P pos O = [].
Proof.
  induction T as [ | c T IH]; intros pos H; [reflexivity | ].
  cbn [naive_scan]. pose proof (H O) as H0; cbn [skipn] in H0; rewrite H0. apply IH.
  intros k. exact (H (S k)).
Qed.

Lemma naive_scan_first P k :
  P <> [] ->
  forall T pos,
    starts_with (skipn k T) P = true ->
    (forall k', (k' < k)%nat -> starts_with (skipn k' T) P = false) ->
    naive_scan T P pos O =
    (pos + k)%nat :: naive_scan (skipn (k + length P) T) P (pos + k + length P) O.
Proof.
  intros HP. induction k as [ | k IH]; intros T pos Hk Hlt.
  - cbn [skipn] in Hk. destruct T as [ | c T].
    + destruct P; [congruence | discriminate].
    + cbn [naive_scan]. rewrite Hk.
      pose proof (proj1 (starts_with_nth _ _) Hk) as [Hl _].
      destruct P as [ | p P]; [congruence | ]. cbn [length] in *.
      rewrite naive_scan_skip by lia.
      rewrite Nat.add_0_r. cbn [Nat.add skipn]. f_equal.
      replace (S (length P) - 1)%nat with (length P) by lia.
      f_equal. lia.
  - destruct T as [ | c T].
    + cbn [skipn] in Hk. destruct P; [congruence | discriminate].
    + cbn [naive_scan]. pose proof (Hlt O ltac:(lia)) as H0; cbn [skipn] in H0; rewrite H0.
      rewrite (IH T (S pos)).
      * cbn [Nat.add skipn]. f_equal; [lia | ]. f_equal. lia.
      * exact Hk.
      * intros k' Hk'. apply (Hlt (S k')). lia.
Qed.

Lemma naive_scan_lower_bound P :
  forall T pos skip x, In x (naive_scan T P pos skip) -> (pos + skip <= x)%nat.
Proof.
  induction T as [ | c T IH]; intros pos skip x; cbn [naive_scan];
    [intros [] | ].
  destruct skip as [ | skip].
  - destruct (starts_with (c :: T) P).
    + intros [<- | H]; [lia | ]. apply IH in H. lia.
    + intros H. apply IH in H. lia.
  - intros H. apply IH in H. lia.
Qed.

Lemma naive_scan_sorted P :
  P <> [] ->
  forall T pos skip,
    StronglySorted (fun a b => (a + length P <= b)%nat) (naive_scan T P pos skip).
Proof.
  intros HP. assert (Hl : (1 <= length P)%nat).
  { destruct P; [congruence | cbn; lia]. }
  induction T as [ | c T IH]; intros pos skip; cbn [naive_scan];
    [constructor | ].
  destruct skip as [ | skip]; [ | apply IH].
  destruct (starts_with (c :: T) P); [ | apply IH].
  constructor; [apply IH | ].
  apply Forall_forall. intros x Hx. apply naive_scan_lower_bound in Hx. lia.
Qed.

Lemma not_occurs_starts_with B P :
  1 <= zlen P ->
  (forall o, ~ occurs_at B P o) ->
  forall k, starts_with (skipn k B) P = false.
Proof.
  intros HP Hno k. destruct (starts_with (skipn k B) P) eqn:E; [ | reflexivity].
  exfalso. apply (Hno (Z.of_nat k)).
  apply occurs_at_starts_with; [exact HP | lia | ].
  rewrite Nat2Z.id. exact E.
Qed.

Lemma leftmost_starts_with B P o :
  1 <= zlen P -> occurs_at B P o ->
  (forall o', occurs_at B P o' -> o <= o') ->
  starts_with (skipn (Z.to_nat o) B) P = true /\
  forall k', (k' < Z.to_nat o)%nat -> starts_with (skipn k' B) P = false.
Proof.
  intros HP Ho Hleft. pose proof Ho as [Ho0 _]. split.
  - apply occurs_at_starts_with; assumption.
  - intros k' Hk'. destruct (starts_with (skipn k' B) P) eqn:E; [ | reflexivity].
    exfalso. assert (Hocc : occurs_at B P (Z.of_nat k')).
    { apply occurs_at_starts_with; [exact HP | lia | ].
      rewrite Nat2Z.id. exact E. }
    apply Hleft in Hocc. lia.
Qed.

(** *** The scan loop of main *)

Lemma main_find_all_spec B P d1 d2 :
  tables_ok P d1 d2 ->
  1 <= zlen P -> 2 * zlen P - 1 <= INT_MAX -> zlen B <= PTRDIFF_MAX ->
  forall fuel last,
    0 <= last <= zlen B ->
    match result (main_find_all fuel B (zlen B) P (zlen P) d1 d2 last) with
    | Ret l =>
        l = map Z.of_nat
              (naive_scan (skipn (Z.to_nat last) B) P (Z.to_nat last) O)
    | Fault => False
    | Timeout => Z.of_nat fuel < zlen B - last + zlen P + 3
    end.
Proof.
  intros Htab HP Hmax HB.
  pose proof PTRDIFF_MAX_room as [Hroom1 Hroom2].
  assert (HPne : P <> []) by (destruct P; [cbn in HP; lia | discriminate]).
  induction fuel as [ | fuel IH]; intros last Hlast; cbn [main_find_all].
  - cbn. lia.
  - rewrite (to_size_id (zlen B - last)) by lia.
    set (B' := skipn (Z.to_nat last) B).
    assert (HB' : zlen B' = zlen B - last).
    { unfold B'. rewrite length_skipn. lia. }
    rewrite <- HB'.
    destruct (bm_search_exit_spec B' P d1 d2 fuel Htab HP Hmax) as [_ Hres];
      [lia | ].
    rewrite result_bind, result_bm_search.
    destruct (result (bm_search_exit fuel B' (zlen B') P (zlen P) d1 d2))
      as [[o | ] | | ].
    + destruct Hres as [Hocc Hleft]. pose proof Hocc as [Ho1 [Ho2 _]].
      cbn [exit_value].
      assert (Hne : (o =? NOT_FOUND) = false).
      { apply Z.eqb_neq. rewrite NOT_FOUND_eq. lia. }
      rewrite Hne. cbn [negb].
      rewrite (to_size_id (o + zlen P)) by lia.
      rewrite (to_size_id (last + (o + zlen P))) by lia.
      rewrite (to_size_id (last + o)) by lia.
      rewrite result_bind.
      specialize (IH (last + (o + zlen P)) ltac:(lia)).
      destruct (result (main_find_all fuel B (zlen B) P (zlen P) d1 d2
                          (last + (o + zlen P)))) as [rest | | ].
      * cbn [result ret snd]. f_equal. subst rest.
        destruct (leftmost_starts_with B' P o HP Hocc Hleft) as [Hs Hlt].
        rewrite (naive_scan_first P (Z.to_nat o) HPne B' (Z.to_nat last) Hs Hlt).
        cbn [map]. f_equal; [lia | ].
        unfold B'. rewrite skipn_skipn. f_equal. f_equal; [f_equal; lia | lia].
      * exact IH.
      * lia.
    + cbn [exit_value]. rewrite Z.eqb_refl. cbn [negb result ret snd].
      rewrite naive_scan_none; [reflexivity | ].
      apply not_occurs_starts_with; assumption.
    + exact Hres.
    + lia.
Qed.

(** *** The properties of the search engine *)

Lemma built_from_ok P d1 d2 :
  1 <= zlen P -> 2 * zlen P - 1 <= INT_MAX ->
  built_from P d1 d2 -> tables_ok P d1 d2.
Proof.
  intros HP Hmax [d1_0 [d2_0 [H1 [H2 [R1 R2]]]]].
  exact (make_tables_ok d1_0 d2_0 P d1 d2 H1 H2 HP Hmax R1 R2).
Qed.

Lemma bm_search_cases fuel B P d1 d2 o :
  1 <= zlen P -> 2 * zlen P - 1 <= INT_MAX -> zlen B <= PTRDIFF_MAX ->
  built_from P d1 d2 ->
  result (bm_search fuel B (zlen B) P (zlen P) d1 d2) = Ret o ->
  (o <> NOT_FOUND /\ occurs_at B P o /\
   forall o', occurs_at B P o' -> o <= o') \/
  (o = NOT_FOUND /\ forall o', ~ occurs_at B P o').
Proof.
  intros HP Hmax HB Hb. pose proof (built_from_ok P d1 d2 HP Hmax Hb) as Htab.
  pose proof PTRDIFF_MAX_room as [Hroom1 Hroom2].
  destruct (bm_search_exit_spec B P d1 d2 fuel Htab HP Hmax HB) as [_ Hres].
  rewrite result_bm_search.
  destruct (result (bm_search_exit fuel B (zlen B) P (zlen P) d1 d2))
    as [[m | ] | | ]; try discriminate; intros H; injection H as <-.
  - left. destruct Hres as [Hocc Hleft]. split; [ | split; assumption].
    cbn [exit_value]. destruct Hocc as [H0 [H1 _]]. rewrite NOT_FOUND_eq. lia.
  - right. split; [reflexivity | exact Hres].
Qed.

(** C1. Soundness of the scanner: with the tables built from a non-empty
    pattern [P], an offset [o] that [bm_search] returns, other than the
    sentinel, is the start of an occurrence: the bytes [B[o .. o+|P|)] are
    [P]. *)
Theorem bm_search_sound fuel B P d1 d2 o :
  1 <= zlen P -> 2 * zlen P - 1 <= INT_MAX -> zlen B <= PTRDIFF_MAX ->
  built_from P d1 d2 ->
  result (bm_search fuel B (zlen B) P (zlen P) d1 d2) = Ret o ->
  o <> NOT_FOUND ->
  slice B o (length P) = P.
Proof.
  intros HP Hmax HB Hb Hr Hne.
  destruct (bm_search_cases fuel B P d1 d2 o HP Hmax HB Hb Hr)
    as [[_ [Hocc _]] | [E _]]; [ | contradiction].
  apply occurs_at_slice; [exact HP | | exact Hocc].
  destruct Hocc as [H0 _]. exact H0.
Qed.

(** C2. Completeness of the scanner: with the tables built from a non-empty
    pattern [P], when [bm_search] returns the sentinel no slice of [B] equals
    [P], and the naive exhaustive search finds nothing either. *)
Theorem bm_search_complete fuel B P d1 d2 :
  1 <= zlen P -> 2 * zlen P - 1 <= INT_MAX -> zlen B <= PTRDIFF_MAX ->
  built_from P d1 d2 ->
  result (bm_search fuel B (zlen B) P (zlen P) d1 d2) = Ret NOT_FOUND ->
  (forall o, 0 <= o -> slice B o (length P) <> P) /\
  naive_search B P = None.
Proof.
  intros HP Hmax HB Hb Hr.
  destruct (bm_search_cases fuel B P d1 d2 NOT_FOUND HP Hmax HB Hb Hr)
    as [[Hne _] | [_ Hno]]; [congruence | ].
  split.
  - intros o Ho E. apply (Hno o). apply occurs_at_slice; assumption.
  - apply naive_search_None. apply not_occurs_starts_with; assumption.
Qed.

(** C3. Leftmost match: with the tables built from a non-empty pattern [P],
    when [bm_search] returns an offset [o] other than the sentinel, [P] does
    not occur in [B] at any offset below [o]. *)
Theorem bm_search_leftmost fuel B P d1 d2 o :
  1 <= zlen P -> 2 * zlen P - 1 <= INT_MAX -> zlen B <= PTRDIFF_MAX ->
  built_from P d1 d2 ->
  result (bm_search fuel B (zlen B) P (zlen P) d1 d2) = Ret o ->
  o <> NOT_FOUND ->
  forall o', 0 <= o' < o -> slice B o' (length P) <> P.
Proof.
  intros HP Hmax HB Hb Hr Hne o' Ho' E.
  destruct (bm_search_cases fuel B P d1 d2 o HP Hmax HB Hb Hr)
    as [[_ [_ Hleft]] | [E' _]]; [ | contradiction].
  assert (Hocc : occurs_at B P o') by (apply occurs_at_slice; [ | lia | ]; assumption).
  apply Hleft in Hocc. lia.
Qed.

(** C4. Bad-character table: for a non-empty pattern [P] and a byte value
    [v], [make_delta1] leaves [|P|] in the entry of [v] when [v] is not among
    [P[0 .. |P|-2]], and otherwise [|P|-1-k] for the rightmost position [k]
    of [v] in [P[0 .. |P|-2]]. *)
Theorem make_delta1_formula d0 P v :
  zlen d0 = ALPHABET_LEN -> 1 <= zlen P <= INT_MAX ->
  0 <= v < ALPHABET_LEN ->
  exists d1,
    result (make_delta1 d0 P (zlen P)) = Ret d1 /\
    ((forall k, 0 <= k < zlen P - 1 -> byte_val (byte_at P k) <> v) ->
     int_at d1 v = zlen P) /\
    (forall k, 0 <= k < zlen P - 1 -> byte_val (byte_at P k) = v ->
               (forall k', k < k' < zlen P - 1 -> byte_val (byte_at P k') <> v) ->
               int_at d1 v = zlen P - 1 - k).
Proof.
  intros Hd0 HP Hv.
  destruct (make_delta1_spec d0 P Hd0 HP) as [d1 [R [_ He]]].
  exists d1. split; [exact R | ].
  destruct (He v Hv) as [[Hn Hno] | [k0 [Hk0 [Hb [Hlast Hval]]]]]; split.
  - intros _. exact Hn.
  - intros k Hk Hbk _. exfalso. exact (Hno k Hk Hbk).
  - intros Hno. exfalso. exact (Hno k0 Hk0 Hb).
  - intros k Hk Hbk Hlastk.
    destruct (Z.lt_trichotomy k k0) as [Hlt | [-> | Hgt]].
    + exfalso. apply (Hlastk k0); [lia | exact Hb].
    + exact Hval.
    + exfalso. apply (Hlast k); [lia | exact Hbk].
Qed.

(** C5. Ranges of the tables: for a non-empty pattern [P], [make_delta1]
    leaves every one of the 256 entries of delta1 in [[1, |P|]] and
    [make_delta2] leaves every one of the [|P|] entries of delta2 in
    [[1, 2|P|-1]]. *)
Theorem delta_tables_range d1_0 d2_0 P :
  zlen d1_0 = ALPHABET_LEN -> length d2_0 = length P ->
  1 <= zlen P -> 2 * zlen P - 1 <= INT_MAX ->
  exists d1 d2,
    result (make_delta1 d1_0 P (zlen P)) = Ret d1 /\
    result (make_delta2 d2_0 P (zlen P)) = Ret d2 /\
    zlen d1 = ALPHABET_LEN /\ length d2 = length P /\
    (forall c, 0 <= c < ALPHABET_LEN -> 1 <= int_at d1 c <= zlen P) /\
    (forall j, 0 <= j < zlen P -> 1 <= int_at d2 j <= 2 * zlen P - 1).
Proof.
  intros H1 H2 HP Hmax.
  destruct (make_delta1_spec d1_0 P H1) as [d1 [R1 [Hl1 He1]]]; [lia | ].
  destruct (make_delta2_spec d2_0 P H2 HP Hmax) as [d2 [R2 [Hl2 He2]]].
  exists d1, d2. repeat (split; [assumption | ]). split.
  - intros c Hc.
    destruct (He1 c Hc) as [[Hv _] | [k [Hk [_ [_ Hv]]]]]; lia.
  - intros j Hj. destruct (He2 j Hj) as [Hr _]. lia.
Qed.

(** C6. Degenerate inputs: when the buffer is shorter than the (non-empty)
    pattern, [bm_search] returns the sentinel and reads nothing, whatever the
    tables hold; and with the tables built from the pattern, [bm_search]
    returns a value for every buffer and every pattern, the empty one
    included, once the iteration budget covers the buffer and the pattern. *)
Theorem bm_search_degenerate fuel B P d1 d2 :
  (1 <= zlen P < SIZE_MOD -> zlen B < zlen P -> (1 <= fuel)%nat ->
   bm_search fuel B (zlen B) P (zlen P) d1 d2 = ([], Ret NOT_FOUND)) /\
  (2 * zlen P - 1 <= INT_MAX -> zlen B <= PTRDIFF_MAX ->
   built_from P d1 d2 -> zlen B + zlen P + 2 <= Z.of_nat fuel ->
   exists o, result (bm_search fuel B (zlen B) P (zlen P) d1 d2) = Ret o).
Proof.
  pose proof PTRDIFF_MAX_room as [Hroom1 Hroom2]. split.
  - intros HP HB Hf. destruct fuel as [ | fuel]; [lia | ].
    unfold bm_search, bm_search_exit. cbn [bm_scan].
    rewrite to_size_id by lia.
    destruct (zlen P - 1 <? zlen B) eqn:E; [lia | ]. reflexivity.
  - intros Hmax HB Hb Hf.
    destruct (Z.eq_dec (zlen P) 0) as [E0 | E0].
    + destruct fuel as [ | fuel]; [lia | ].
      exists NOT_FOUND. unfold bm_search, bm_search_exit. cbn [bm_scan].
      rewrite E0. change (to_size (0 - 1)) with NOT_FOUND.
      assert (Hlt : (NOT_FOUND <? zlen B) = false)
        by (rewrite NOT_FOUND_eq; apply Z.ltb_ge; lia).
      rewrite Hlt. reflexivity.
    + assert (HP : 1 <= zlen P) by lia.
      pose proof (built_from_ok P d1 d2 HP Hmax Hb) as Htab.
      destruct (bm_search_exit_spec B P d1 d2 fuel Htab HP Hmax HB) as [_ Hres].
      rewrite result_bm_search.
      destruct (result (bm_search_exit fuel B (zlen B) P (zlen P) d1 d2))
        as [e | | ].
      * exists (exit_value e). reflexivity.
      * destruct Hres.
      * lia.
Qed.

Lemma StronglySorted_map_of_nat (n : nat) l :
  StronglySorted (fun a b => (a + n <= b)%nat) l ->
  StronglySorted (fun a b => a + Z.of_nat n <= b) (map Z.of_nat l).
Proof.
  induction 1 as [ | a l Hs IH Hall]; cbn [map]; constructor.
  - exact IH.
  - apply Forall_map. revert Hall. apply Forall_impl. intros b Hb. lia.
Qed.

(** C7. The scan loop of [main] against the naive scan: with the tables
    built from a non-empty pattern [P], the offsets the loop hands to
    [print_match] are those of the naive greedy left-to-right scan for
    non-overlapping matches, any two of them are at least [|P|] apart, and
    the loop ends once the iteration budget covers the buffer and the
    pattern. *)
Theorem main_find_all_naive fuel B P d1 d2 :
  1 <= zlen P -> 2 * zlen P - 1 <= INT_MAX -> zlen B <= PTRDIFF_MAX ->
  built_from P d1 d2 ->
  (forall l,
     result (main_find_all fuel B (zlen B) P (zlen P) d1 d2 0) = Ret l ->
     l = map Z.of_nat (naive_scan B P O O) /\
     StronglySorted (fun a b => a + zlen P <= b) l) /\
  (zlen B + zlen P + 3 <= Z.of_nat fuel ->
   exists l, result (main_find_all fuel B (zlen B) P (zlen P) d1 d2 0) = Ret l).
Proof.
  intros HP Hmax HB Hb.
  pose proof (built_from_ok P d1 d2 HP Hmax Hb) as Htab.
  pose proof (main_find_all_spec B P d1 d2 Htab HP Hmax HB fuel 0
                ltac:(lia)) as Hspec.
  cbn [Z.to_nat skipn] in Hspec.
  destruct (result (main_find_all fuel B (zlen B) P (zlen P) d1 d2 0))
    as [l0 | | ].
  - split.
    + intros l H. injection H as <-. split; [exact Hspec | ].
      rewrite Hspec. apply StronglySorted_map_of_nat. apply naive_scan_sorted.
      destruct P; [cbn in HP; lia | discriminate].
    + intros _. exists l0. reflexivity.
  - destruct Hspec.
  - split; [intros l H; discriminate | intros Hf; lia].
Qed.

Lemma skipn_repeat {A} (b : A) k m : skipn k (repeat b m) = repeat b (m - k).
Proof.
  revert m. induction k as [ | k IH]; intros m.
  - rewrite Nat.sub_0_r. reflexivity.
  - destruct m as [ | m]; [reflexivity | ]. cbn [repeat skipn Nat.sub]. apply IH.
Qed.

Lemma starts_with_repeat b m n :
  starts_with (repeat b m) (repeat b n) = (n <=? m)%nat.
Proof.
  revert m. induction n as [ | n IH]; intros m; [reflexivity | ].
  destruct m as [ | m]; [reflexivity | ].
  cbn [repeat starts_with]. rewrite IH.
  rewrite (proj2 (byte_eqb_eq b b) eq_refl). reflexivity.
Qed.

Lemma naive_scan_repeat b n :
  (1 <= n)%nat ->
  forall m pos,
    naive_scan (repeat b m) (repeat b n) pos O =
    map (fun q => (pos + q * n)%nat) (seq 0 (m / n)).
Proof.
  intros Hn m. induction m as [m IH] using lt_wf_ind. intros pos.
  destruct (Nat.lt_ge_cases m n) as [Hlt | Hge].
  - rewrite Nat.div_small by exact Hlt. cbn [seq map].
    apply naive_scan_none. intros k.
    rewrite skipn_repeat, starts_with_repeat. apply Nat.leb_gt. lia.
  - rewrite (naive_scan_first (repeat b n) 0).
    + rewrite repeat_length, skipn_repeat. cbn [Nat.add].
      rewrite IH by lia.
      replace (m / n)%nat with (S ((m - n) / n)).
      * cbn [seq map]. replace (pos + 0 * n)%nat with (pos + 0)%nat by lia.
        apply (f_equal (cons (pos + 0)%nat)).
        rewrite <- seq_shift, map_map. apply map_ext. intros q. lia.
      * replace m with ((m - n) + 1 * n)%nat at 2 by lia.
        rewrite Nat.div_add by lia. lia.
    + destruct n; [lia | discriminate].
    + cbn [skipn]. rewrite starts_with_repeat. apply Nat.leb_le. exact Hge.
    + intros k' Hk'. lia.
Qed.

(** C8. A pattern of [n >= 1] copies of a byte against a buffer of [n+k]
    copies of it: the scan loop of [main] reports [floor((n+k)/n)] matches,
    at the offsets [0, n, 2n, ...]. *)
Theorem main_find_all_repeat fuel b n k d1 d2 :
  (1 <= n)%nat -> 2 * Z.of_nat n - 1 <= INT_MAX ->
  Z.of_nat (n + k) <= PTRDIFF_MAX ->
  built_from (repeat b n) d1 d2 ->
  Z.of_nat (n + k) + Z.of_nat n + 3 <= Z.of_nat fuel ->
  result (main_find_all fuel (repeat b (n + k)) (zlen (repeat b (n + k)))
            (repeat b n) (zlen (repeat b n)) d1 d2 0) =
  Ret (map (fun q => Z.of_nat (q * n)) (seq 0 ((n + k) / n))).
Proof.
  intros Hn Hmax HB Hb Hf.
  assert (HP : 1 <= zlen (repeat b n)) by (rewrite repeat_length; lia).
  assert (Hmax' : 2 * zlen (repeat b n) - 1 <= INT_MAX)
    by (rewrite repeat_length; lia).
  assert (HB' : zlen (repeat b (n + k)) <= PTRDIFF_MAX)
    by (rewrite repeat_length; lia).
  pose proof (built_from_ok _ d1 d2 HP Hmax' Hb) as Htab.
  pose proof (main_find_all_spec _ _ d1 d2 Htab HP Hmax' HB' fuel 0) as Hspec.
  rewrite !repeat_length in Hspec. rewrite !repeat_length.
  specialize (Hspec ltac:(lia)). cbn [Z.to_nat skipn] in Hspec.
  destruct (result (main_find_all fuel (repeat b (n + k)) (Z.of_nat (n + k))
                      (repeat b n) (Z.of_nat n) d1 d2 0)) as [l | | ].
  - rewrite Hspec, naive_scan_repeat by exact Hn.
    rewrite map_map. reflexivity.
  - destruct Hspec.
  - lia.
Qed.

(** C9. The sentinel is no offset: an offset [o] that [bm_search] returns
    through [return i + 1] leaves room for the pattern, [o + |P| <= |B|], so
    it is below [NOT_FOUND = (size_t)-1]; this holds whatever the tables
    hold. *)
Theorem bm_search_sentinel fuel B P d1 d2 o :
  1 <= zlen P <= INT_MAX -> zlen B < SIZE_MOD ->
  (result (bm_search_exit fuel B (zlen B) P (zlen P) d1 d2) = Ret (Matched o) ->
   0 <= o /\ o + zlen P <= zlen B /\ o < NOT_FOUND) /\
  (result (bm_search fuel B (zlen B) P (zlen P) d1 d2) = Ret o ->
   o <> NOT_FOUND ->
   0 <= o /\ o + zlen P <= zlen B /\ o < NOT_FOUND).
Proof.
  intros HP HB.
  assert (Hm : forall m,
            result (bm_search_exit fuel B (zlen B) P (zlen P) d1 d2)
            = Ret (Matched m) ->
            0 <= m /\ m + zlen P <= zlen B /\ m < NOT_FOUND).
  { intros m H. unfold bm_search_exit in H.
    apply bm_scan_any in H; [ | exact HB | exact HP | apply to_size_range].
    destruct H as [H0 [H1 _]]. rewrite NOT_FOUND_eq. lia. }
  split; [apply Hm | ].
  rewrite result_bm_search.
  destruct (result (bm_search_exit fuel B (zlen B) P (zlen P) d1 d2))
    as [[m | ] | | ]; try discriminate; intros H Hne; injection H as <-.
  - apply Hm. reflexivity.
  - exfalso. apply Hne. reflexivity.
Qed.

(** C10. Accesses of the scan: with the tables built from a non-empty
    pattern [P], every load of [bm_search] is inside its array (the buffer,
    the pattern, the 256 entries of delta1, the [|P|] entries of delta2) and
    the scan never faults; and when [P] occurs at offset 0 the inner loop
    leaves the cursor [i] at [2^w - 1] and [bm_search] returns [i + 1 = 0]. *)
Theorem bm_search_in_bounds fuel B P d1 d2 :
  1 <= zlen P -> 2 * zlen P - 1 <= INT_MAX -> zlen B <= PTRDIFF_MAX ->
  built_from P d1 d2 ->
  Forall (in_bounds B P) (trace (bm_search fuel B (zlen B) P (zlen P) d1 d2)) /\
  result (bm_search fuel B (zlen B) P (zlen P) d1 d2) <> Fault /\
  (slice B 0 (length P) = P -> zlen P + 1 <= Z.of_nat fuel ->
   result (bm_match fuel B P (to_size (zlen P - 1))
             (to_int (to_size (zlen P - 1)))) = Ret (2 ^ w - 1, -1) /\
   result (bm_search (S fuel) B (zlen B) P (zlen P) d1 d2) = Ret 0).
Proof.
  intros HP Hmax HB Hb.
  pose proof (built_from_ok P d1 d2 HP Hmax Hb) as Htab.
  pose proof PTRDIFF_MAX_room as [Hroom1 Hroom2].
  destruct (bm_search_exit_spec B P d1 d2 fuel Htab HP Hmax HB) as [Htr Hres].
  split; [rewrite trace_bm_search; exact Htr | ]. split.
  - rewrite result_bm_search.
    destruct (result (bm_search_exit fuel B (zlen B) P (zlen P) d1 d2));
      [discriminate | destruct Hres | discriminate].
  - intros Hsl Hf.
    apply occurs_at_slice in Hsl; [ | exact HP | lia].
    destruct Hsl as [_ [Hfit Heq]].
    rewrite (to_size_id (zlen P - 1)) by (unfold INT_MAX in *; lia).
    rewrite (to_int_id (zlen P - 1)) by int_bounds.
    assert (Hm : result (bm_match fuel B P (zlen P - 1) (zlen P - 1))
                 = Ret (2 ^ w - 1, -1)).
    { destruct (bm_match_spec B P 0) with (fuel := fuel) (j := zlen P - 1)
        as [_ Hmres]; try (unfold INT_MAX in *; lia).
      replace (0 + (zlen P - 1)) with (zlen P - 1) in Hmres by lia.
      rewrite (to_size_id (zlen P - 1)) in Hmres
        by (unfold INT_MAX in *; lia).
      destruct (result (bm_match fuel B P (zlen P - 1) (zlen P - 1)))
        as [[i' j'] | | ]; [ | destruct Hmres | lia].
      destruct Hmres as [Hj' [Hi' [_ Hmis]]].
      assert (j' = -1).
      { destruct (Z_lt_dec j' 0) as [Hneg | Hpos]; [lia | ].
        exfalso. apply Hmis; [lia | ]. apply Heq. lia. }
      subst j'. rewrite Hi'. f_equal. f_equal.
      change (to_size (0 + -1)) with NOT_FOUND. apply NOT_FOUND_eq. }
    split; [exact Hm | ].
    rewrite result_bm_search. unfold bm_search_exit. cbn [bm_scan].
    rewrite (to_size_id (zlen P - 1)) by (unfold INT_MAX in *; lia).
    rewrite (to_int_id (zlen P - 1)) by int_bounds.
    destruct (zlen P - 1 <? zlen B) eqn:E; [ | lia].
    rewrite result_bind, Hm. cbn.
    replace (2 ^ w - 1 + 1) with SIZE_MOD by (unfold SIZE_MOD; lia).
    unfold to_size. rewrite Z_mod_same_full. reflexivity.
Qed.

(** *** Further properties of boyer_moore.c *)

Lemma suffix_is_prefix_lists P pos :
  0 <= pos <= zlen P ->
  (suffix_is_prefix P pos <->
   skipn (Z.to_nat pos) P = firstn (length P - Z.to_nat pos) P).
Proof.
  intros Hpos. unfold suffix_is_prefix, byte_at. split.
  - intros H. apply (nth_ext _ _ "000"%byte "000"%byte).
    + rewrite length_skipn, length_firstn. lia.
    + intros i Hi. rewrite length_skipn in Hi.
      rewrite nth_skipn, nth_firstn.
      destruct (i <? length P - Z.to_nat pos)%nat eqn:E;
        [ | apply Nat.ltb_ge in E; lia].
      specialize (H (Z.of_nat i) ltac:(lia)).
      rewrite Nat2Z.id in H. rewrite H. f_equal. lia.
  - intros H i Hi.
    assert (E : nth (Z.to_nat i) (skipn (Z.to_nat pos) P) "000"%byte
                = nth (Z.to_nat i) (firstn (length P - Z.to_nat pos) P) "000"%byte)
      by (rewrite H; reflexivity).
    rewrite nth_skipn, nth_firstn in E.
    destruct (Z.to_nat i <? length P - Z.to_nat pos)%nat eqn:El;
      [ | apply Nat.ltb_ge in El; lia].
    rewrite <- E. f_equal. lia.
Qed.

(** X1. [is_prefix(word, wordlen, pos)] returns 1 when the suffix of [word]
    that starts at [pos] is a prefix of [word] and 0 otherwise, reading only
    inside [word]; for [pos = wordlen] (the empty suffix) it returns 1. *)
Theorem is_prefix_correct word pos :
  1 <= pos <= zlen word -> zlen word <= INT_MAX ->
  (skipn (Z.to_nat pos) word = firstn (length word - Z.to_nat pos) word ->
   result (is_prefix word (zlen word) pos) = Ret 1) /\
  (skipn (Z.to_nat pos) word <> firstn (length word - Z.to_nat pos) word ->
   result (is_prefix word (zlen word) pos) = Ret 0) /\
  (pos = zlen word -> result (is_prefix word (zlen word) pos) = Ret 1).
Proof.
  intros Hpos Hmax.
  destruct (is_prefix_spec word pos Hpos Hmax) as [t [Ht Hcase]].
  rewrite Ht.
  assert (Hiff := suffix_is_prefix_lists word pos ltac:(lia)).
  destruct Hcase as [[-> Hpre] | [-> Hpre]].
  - split; [reflexivity | ]. split; [ | reflexivity].
    intros Hne. exfalso. apply Hne. apply Hiff. exact Hpre.
  - split; [ | split].
    + intros Heq. exfalso. apply Hpre. apply Hiff. exact Heq.
    + reflexivity.
    + intros ->. exfalso. apply Hpre. apply suffix_is_prefix_end.
Qed.

(** X2. [suffix_length(word, wordlen, pos)] returns the length [m] of the
    longest run [word[pos-m+1 .. pos]] that equals the end of [word], counted
    up to [pos] bytes at most: the bytes of the run agree, and when [m < pos]
    the next pair of bytes differs.  It reads only inside [word]. *)
Theorem suffix_length_correct word pos :
  0 <= pos <= zlen word - 1 -> zlen word <= INT_MAX ->
  exists m,
    result (suffix_length word (zlen word) pos) = Ret m /\
    0 <= m <= pos /\
    (forall k, 0 <= k < m ->
               byte_at word (pos - k) = byte_at word (zlen word - 1 - k)) /\
    (m < pos -> byte_at word (pos - m) <> byte_at word (zlen word - 1 - m)).
Proof.
  intros Hpos Hmax. exact (suffix_length_spec word pos Hpos Hmax).
Qed.

(** X3. The good-suffix table is exact: for every pattern position [j],
    [delta2[j]] is [patlen-1-j] plus the least shift [s >= 1] of the pattern
    that agrees with a mismatch at [j] after the match of [pat[j+1 ..]]; in
    particular [delta2[j] >= patlen - j], so the window always moves
    forward. *)
Theorem make_delta2_exact d0 P j :
  length d0 = length P -> 1 <= zlen P -> 2 * zlen P - 1 <= INT_MAX ->
  0 <= j < zlen P ->
  exists d2,
    result (make_delta2 d0 P (zlen P)) = Ret d2 /\
    zlen P - j <= int_at d2 j /\
    compatible P j (int_at d2 j - (zlen P - 1 - j)) /\
    forall s, 1 <= s < int_at d2 j - (zlen P - 1 - j) -> ~ compatible P j s.
Proof.
  intros Hd0 HP Hmax Hj.
  destruct (make_delta2_spec d0 P Hd0 HP Hmax) as [d2 [R [_ He]]].
  exists d2. split; [exact R | ].
  destruct (He j Hj) as [Hr [Hsafe Hc]].
  split; [lia | ]. split; [exact Hc | ].
  intros s Hs. apply Hsafe; lia.
Qed.

(** X4. Whatever the two tables hold, an offset that [bm_search] returns
    other than the sentinel is the start of an occurrence of the pattern:
    a wrong table can lose matches or lead the scan outside the buffer, but
    cannot make it report a false match. *)
Theorem bm_search_sound_any_tables fuel B P d1 d2 o :
  1 <= zlen P <= INT_MAX -> zlen B < SIZE_MOD ->
  result (bm_search fuel B (zlen B) P (zlen P) d1 d2) = Ret o ->
  o <> NOT_FOUND ->
  slice B o (length P) = P.
Proof.
  intros HP HB. rewrite result_bm_search.
  destruct (result (bm_search_exit fuel B (zlen B) P (zlen P) d1 d2))
    as [[m | ] | | ] eqn:E; try discriminate; intros H Hne; injection H as <-.
  - unfold bm_search_exit in E.
    apply bm_scan_any in E; [ | exact HB | exact HP | apply to_size_range].
    apply occurs_at_slice; [lia | | exact E].
    destruct E as [H0 _]. exact H0.
  - exfalso. apply Hne. reflexivity.
Qed.

Lemma bm_search_patlen_0 fuel B sl pat d1 d2 :
  (1 <= fuel)%nat -> 0 <= sl < SIZE_MOD ->
  bm_search fuel B sl pat 0 d1 d2 = ([], Ret NOT_FOUND).
Proof.
  intros Hf Hsl. destruct fuel as [ | fuel]; [lia | ].
  unfold bm_search, bm_search_exit. cbn [bm_scan].
  change (to_size (0 - 1)) with NOT_FOUND.
  assert (Hlt : (NOT_FOUND <? sl) = false)
    by (rewrite NOT_FOUND_eq; apply Z.ltb_ge; lia).
  rewrite Hlt. reflexivity.
Qed.

(** X5. With [patlen = 0] (what [main] passes on after "Invalid pattern")
    [bm_search] returns the sentinel at once, reading neither the buffer nor
    the pattern, and the scan loop of [main] reports no match. *)
Theorem bm_search_empty_pattern fuel B pat d1 d2 :
  (1 <= fuel)%nat -> zlen B < SIZE_MOD ->
  bm_search fuel B (zlen B) pat 0 d1 d2 = ([], Ret NOT_FOUND) /\
  main_find_all (S fuel) B (zlen B) pat 0 d1 d2 0 = ([], Ret []).
Proof.
  intros Hf HB. split.
  - apply bm_search_patlen_0; [exact Hf | lia].
  - cbn [main_find_all].
    rewrite bm_search_patlen_0; [ | exact Hf | apply to_size_range].
    cbn [bind]. rewrite Z.eqb_refl. reflexivity.
Qed.

Lemma naive_scan_occurs P :
  forall T pos skip x,
    In x (naive_scan T P pos skip) ->
    exists k, x = (pos + k)%nat /\ starts_with (skipn k T) P = true.
Proof.
  induction T as [ | c T IH]; intros pos skip x; cbn [naive_scan];
    [intros [] | ].
  assert (Hrec : forall skip', In x (naive_scan T P (S pos) skip') ->
            exists k, x = (pos + k)%nat /\ starts_with (skipn k (c :: T)) P = true).
  { intros skip' H. apply IH in H. destruct H as [k [-> Hk]].
    exists (S k). split; [lia | exact Hk]. }
  destruct skip as [ | skip]; [ | apply Hrec].
  destruct (starts_with (c :: T) P) eqn:E; [ | apply Hrec].
  intros [<- | H]; [ | exact (Hrec _ H)].
  exists O. split; [lia | exact E].
Qed.

Lemma naive_scan_count P :
  P <> [] ->
  forall T pos skip,
    (length (naive_scan T P pos skip) * length P <= length T - skip)%nat.
Proof.
  intros HP. induction T as [ | c T IH]; intros pos skip; cbn [naive_scan];
    [cbn; lia | ].
  destruct skip as [ | skip].
  - destruct (starts_with (c :: T) P) eqn:E.
    + apply starts_with_nth in E. destruct E as [Hl _].
      assert (1 <= length P)%nat by (destruct P; [congruence | cbn; lia]).
      specialize (IH (S pos) (length P - 1)%nat).
      cbn [length] in *. lia.
    + specialize (IH (S pos) O). cbn [length]. lia.
  - specialize (IH (S pos) skip). cbn [length]. lia.
Qed.

Lemma naive_scan_covers P :
  P <> [] ->
  forall T pos skip k,
    (skip <= k)%nat -> starts_with (skipn k T) P = true ->
    exists r, In r (naive_scan T P pos skip) /\
              (r <= pos + k < r + length P)%nat.
Proof.
  intros HP. induction T as [ | c T IH]; intros pos skip k Hk Hs.
  - rewrite skipn_nil in Hs. destruct P; [congruence | discriminate].
  - cbn [naive_scan].
    assert (Hrec : forall skip' k',
              k = S k' -> (skip' <= k')%nat ->
              exists r, In r (naive_scan T P (S pos) skip') /\
                        (r <= pos + k < r + length P)%nat).
    { intros skip' k' -> Hk'. cbn [skipn] in Hs.
      destruct (IH (S pos) skip' k' Hk' Hs) as [r [Hin Hr]].
      exists r. split; [exact Hin | lia]. }
    destruct skip as [ | skip].
    + destruct (starts_with (c :: T) P) eqn:E.
      * destruct (Nat.lt_ge_cases k (length P)) as [Hlt | Hge].
        -- exists pos. split; [left; reflexivity | lia].
        -- assert (1 <= length P)%nat by (destruct P; [congruence | cbn; lia]).
           destruct k as [ | k']; [lia | ].
           destruct (Hrec (length P - 1)%nat k' eq_refl ltac:(lia))
             as [r [Hin Hr]].
           exists r. split; [right; exact Hin | exact Hr].
      * destruct k as [ | k'].
        -- cbn [skipn] in Hs. congruence.
        -- apply (Hrec O k' eq_refl). lia.
    + destruct k as [ | k']; [lia | ].
      apply (Hrec skip k' eq_refl). lia.
Qed.

(** X6. Every offset the scan loop of [main] hands to [print_match] is the
    start of an occurrence of the pattern that lies inside the file, and the
    loop reports at most [|B| / |P|] of them. *)
Theorem main_find_all_reports fuel B P d1 d2 l :
  1 <= zlen P -> 2 * zlen P - 1 <= INT_MAX -> zlen B <= PTRDIFF_MAX ->
  built_from P d1 d2 ->
  result (main_find_all fuel B (zlen B) P (zlen P) d1 d2 0) = Ret l ->
  Forall (fun o => 0 <= o /\ o + zlen P <= zlen B /\ slice B o (length P) = P) l /\
  Z.of_nat (length l) * zlen P <= zlen B.
Proof.
  intros HP Hmax HB Hb Hr.
  pose proof (built_from_ok P d1 d2 HP Hmax Hb) as Htab.
  pose proof (main_find_all_spec B P d1 d2 Htab HP Hmax HB fuel 0
                ltac:(lia)) as Hspec.
  rewrite Hr in Hspec. cbn [Z.to_nat skipn] in Hspec. subst l.
  assert (HPne : P <> []) by (destruct P; [cbn in HP; lia | discriminate]).
  split.
  - apply Forall_map. apply Forall_forall. intros x Hx.
    apply naive_scan_occurs in Hx. destruct Hx as [k [-> Hk]].
    cbn [Nat.add].
    assert (Hocc : occurs_at B P (Z.of_nat k)).
    { apply occurs_at_starts_with; [exact HP | lia | ].
      rewrite Nat2Z.id. exact Hk. }
    pose proof Hocc as [H0 [H1 _]].
    split; [exact H0 | ]. split; [exact H1 | ].
    apply occurs_at_slice; assumption.
  - rewrite length_map.
    pose proof (naive_scan_count P HPne B O O) as Hc. lia.
Qed.

(** X7. The scan loop of [main] misses no occurrence but those that overlap
    a reported match: every offset [o] at which the pattern occurs lies
    inside some reported match [[r, r + |P|)]. *)
Theorem main_find_all_covers fuel B P d1 d2 l o :
  1 <= zlen P -> 2 * zlen P - 1 <= INT_MAX -> zlen B <= PTRDIFF_MAX ->
  built_from P d1 d2 ->
  result (main_find_all fuel B (zlen B) P (zlen P) d1 d2 0) = Ret l ->
  0 <= o -> slice B o (length P) = P ->
  exists r, In r l /\ r <= o < r + zlen P.
Proof.
  intros HP Hmax HB Hb Hr Ho Hs.
  pose proof (built_from_ok P d1 d2 HP Hmax Hb) as Htab.
  pose proof (main_find_all_spec B P d1 d2 Htab HP Hmax HB fuel 0
                ltac:(lia)) as Hspec.
  rewrite Hr in Hspec. cbn [Z.to_nat skipn] in Hspec. subst l.
  assert (HPne : P <> []) by (destruct P; [cbn in HP; lia | discriminate]).
  apply starts_with_firstn in Hs.
  destruct (naive_scan_covers P HPne B O O (Z.to_nat o) ltac:(lia) Hs)
    as [r [Hin Hr']].
  exists (Z.of_nat r). split; [apply in_map; exact Hin | lia].
Qed.

(** *** hex_decode *)

Lemma byte_at_upd_eq l i v :
  0 <= i < zlen l -> byte_at (upd (Z.to_nat i) v l) i = v.
Proof. intros H. unfold byte_at. apply nth_upd_eq. lia. Qed.

Lemma byte_at_upd_neq l i k v :
  0 <= i -> 0 <= k -> k <> i -> byte_at (upd (Z.to_nat i) v l) k = byte_at l k.
Proof. intros Hi Hk H. unfold byte_at. apply nth_upd_neq. lia. Qed.

Lemma byte_val_to_uint8 z : byte_val (to_uint8 z) = z mod 256.
Proof.
  unfold to_uint8, byte_val.
  assert (Hr : 0 <= z mod 256 < 256) by (apply Z.mod_pos_bound; lia).
  destruct (Byte.of_N (Z.to_N (z mod 256))) as [b | ] eqn:E.
  - apply Byte.to_of_N in E. rewrite E. lia.
  - apply Byte.of_N_None_iff in E. lia.
Qed.

Lemma hchar_range c v : hchar c = Some v -> 0 <= v < 16.
Proof.
  unfold hchar. intros H.
  repeat match type of H with
         | (if ?b then _ else _) = _ =>
             let E := fresh "E" in destruct b eqn:E
         end; try discriminate; injection H as <-; lia.
Qed.

Lemma nibble_cases v : 0 <= v < 16 -> In v (map Z.of_nat (seq 0 16)).
Proof.
  intros H. replace v with (Z.of_nat (Z.to_nat v)) by lia.
  apply in_map. apply in_seq. lia.
Qed.

Lemma lor_nibbles h l :
  0 <= h < 16 -> 0 <= l < 16 -> Z.lor (Z.shiftl h 4) l = 16 * h + l.
Proof.
  intros Hh Hl.
  assert (H : forallb (fun h => forallb (fun l =>
                Z.lor (Z.shiftl h 4) l =? 16 * h + l)
                (map Z.of_nat (seq 0 16))) (map Z.of_nat (seq 0 16)) = true)
    by (vm_compute; reflexivity).
  rewrite forallb_forall in H. specialize (H h (nibble_cases h Hh)).
  rewrite forallb_forall in H. specialize (H l (nibble_cases l Hl)).
  apply Z.eqb_eq. exact H.
Qed.

Lemma hchar_digit digit :
  digit = hex_digit_lower \/ digit = hex_digit_upper ->
  forall v, 0 <= v < 16 -> hchar (digit v) = Some v.
Proof.
  intros Hd v Hv.
  assert (H : forallb (fun v =>
                match hchar (hex_digit_lower v), hchar (hex_digit_upper v) with
                | Some a, Some b => (a =? v) && (b =? v)
                | _, _ => false
                end) (map Z.of_nat (seq 0 16)) = true)
    by (vm_compute; reflexivity).
  rewrite forallb_forall in H. specialize (H v (nibble_cases v Hv)).
  destruct (hchar (hex_digit_lower v)) as [a | ] eqn:Ea; [ | discriminate].
  destruct (hchar (hex_digit_upper v)) as [b | ] eqn:Eb; [ | discriminate].
  apply andb_true_iff in H. destruct H as [Ha Hb'].
  apply Z.eqb_eq in Ha. apply Z.eqb_eq in Hb'. subst a b.
  destruct Hd as [-> | ->]; assumption.
Qed.

Lemma hex_decode_loop_ok word ret_size :
  zlen word = 2 * ret_size -> 2 * ret_size < SIZE_MOD ->
  forall n i block,
    0 <= i <= ret_size -> zlen block = ret_size ->
    (Z.to_nat (ret_size - i) <= n)%nat ->
    (forall k, i <= k < ret_size ->
               hchar (byte_at word (2 * k)) <> None /\
               hchar (byte_at word (2 * k + 1)) <> None) ->
    exists block',
      result (hex_decode_loop n word block ret_size i) = Ret (Some block') /\
      zlen block' = ret_size /\
      (forall k, 0 <= k < i -> byte_at block' k = byte_at block k) /\
      (forall k h l, i <= k < ret_size ->
         hchar (byte_at word (2 * k)) = Some h ->
         hchar (byte_at word (2 * k + 1)) = Some l ->
         byte_at block' k = to_uint8 (Z.lor (Z.shiftl h 4) l)).
Proof.
  intros Hw Hsz. induction n as [ | n IH]; intros i block Hi Hb Hn Hok;
    cbn [hex_decode_loop]; destruct (i <? ret_size) eqn:E; try lia.
  - exists block. split; [reflexivity | ]. split; [exact Hb | ].
    split; [intros; reflexivity | intros k h l Hk; lia].
  - rewrite (to_size_id (2 * i)) by lia.
    rewrite (to_size_id (2 * i + 1)) by lia.
    rewrite (to_size_id (i + 1)) by lia.
    rewrite result_bind, result_load_byte by lia.
    rewrite result_bind, result_load_byte by lia.
    destruct (Hok i ltac:(lia)) as [Hh Hl].
    destruct (hchar (byte_at word (2 * i))) as [h | ] eqn:Eh; [ | congruence].
    destruct (hchar (byte_at word (2 * i + 1))) as [l | ] eqn:El;
      [ | congruence].
    rewrite result_bind, result_store by lia.
    destruct (IH (i + 1)
                (upd (Z.to_nat i) (to_uint8 (Z.lor (Z.shiftl h 4) l)) block))
      as [block' [R [Hlen [Hkeep Hnew]]]].
    + lia.
    + rewrite length_upd. exact Hb.
    + lia.
    + intros k Hk. apply Hok. lia.
    + exists block'. split; [exact R | ]. split; [exact Hlen | ]. split.
      * intros k Hk. rewrite Hkeep by lia. apply byte_at_upd_neq; lia.
      * intros k h' l' Hk Hh' Hl'.
        destruct (Z.eq_dec k i) as [-> | Hne].
        -- rewrite Hkeep by lia. rewrite byte_at_upd_eq by lia. congruence.
        -- apply Hnew; [lia | assumption | assumption].
  - exists block. split; [reflexivity | ]. split; [exact Hb | ].
    split; [intros; reflexivity | intros k h l Hk; lia].
Qed.

Lemma hex_decode_loop_exit word ret_size :
  zlen word = 2 * ret_size -> 2 * ret_size < SIZE_MOD ->
  forall n i block,
    0 <= i <= ret_size -> zlen block = ret_size ->
    (Z.to_nat (ret_size - i) <= n)%nat ->
    (exists k, i <= k < ret_size /\
               (hchar (byte_at word (2 * k)) = None \/
                hchar (byte_at word (2 * k + 1)) = None)) ->
    result (hex_decode_loop n word block ret_size i) = Ret None.
Proof.
  intros Hw Hsz. induction n as [ | n IH]; intros i block Hi Hb Hn [k [Hk Hbad]];
    cbn [hex_decode_loop]; destruct (i <? ret_size) eqn:E; try lia.
  rewrite (to_size_id (2 * i)) by lia.
  rewrite (to_size_id (2 * i + 1)) by lia.
  rewrite (to_size_id (i + 1)) by lia.
  rewrite result_bind, result_load_byte by lia.
  rewrite result_bind, result_load_byte by lia.
  destruct (hchar (byte_at word (2 * i))) as [h | ] eqn:Eh; [ | reflexivity].
  destruct (hchar (byte_at word (2 * i + 1))) as [l | ] eqn:El;
    [ | reflexivity].
  rewrite result_bind, result_store by lia.
  apply IH; [lia | rewrite length_upd; exact Hb | lia | ].
  exists k. split; [ | exact Hbad].
  destruct (Z.eq_dec k i) as [-> | Hne]; [ | lia].
  destruct Hbad; congruence.
Qed.


(** X9. On a string of even non-empty length [hex_decode] returns
    [length/2] bytes, the [k]-th of value [16 h + l] for the digits [h] and
    [l] at positions [2k] and [2k+1] (upper and lower case alike), when every
    character is a hexadecimal digit; otherwise it ends in the [exit(1)] of
    [hchar]. *)
Theorem hex_decode_digits block word :
  zlen word <> 0 -> zlen word mod 2 = 0 -> zlen word < SIZE_MOD ->
  zlen block = zlen word / 2 ->
  ((forall c, In c word -> hchar c <> None) ->
   exists bytes,
     result (hex_decode block (Some word))
     = Ret (Hex_bytes bytes (zlen word / 2)) /\
     zlen bytes = zlen word / 2 /\
     forall k h l, 0 <= k < zlen word / 2 ->
       hchar (byte_at word (2 * k)) = Some h ->
       hchar (byte_at word (2 * k + 1)) = Some l ->
       byte_val (byte_at bytes k) = 16 * h + l) /\
  ((exists c, In c word /\ hchar c = None) ->
   result (hex_decode block (Some word)) = Ret Hex_exit).
Proof.
  intros H0 H2 Hsz Hb.
  assert (Hw : zlen word = 2 * (zlen word / 2)).
  { pose proof (Z.div_mod (zlen word) 2 ltac:(lia)). lia. }
  assert (Hunf : result (hex_decode block (Some word)) =
                 match result (hex_decode_loop (Z.to_nat (zlen word / 2)) word
                                 block (zlen word / 2) 0) with
                 | Ret (Some bs) => Ret (Hex_bytes bs (zlen word / 2))
                 | Ret None => Ret Hex_exit
                 | Fault => Fault
                 | Timeout => Timeout
                 end).
  { unfold hex_decode; cbv zeta.
    destruct (zlen word =? 0) eqn:E0; [apply Z.eqb_eq in E0; lia | ].
    rewrite H2. cbn [Z.eqb negb]. rewrite result_bind.
    destruct (result (hex_decode_loop (Z.to_nat (zlen word / 2)) word block
                        (zlen word / 2) 0)) as [[bs | ] | | ]; reflexivity. }
  rewrite Hunf. split.
  - intros Hall.
    destruct (hex_decode_loop_ok word (zlen word / 2) Hw ltac:(lia)
                (Z.to_nat (zlen word / 2)) 0 block)
      as [bs [R [Hlen [_ Hval]]]]; try lia.
    + intros k Hk. split; apply Hall; apply nth_In; lia.
    + rewrite R. exists bs. split; [reflexivity | ]. split; [exact Hlen | ].
      intros k h l Hk Hh Hl.
      rewrite (Hval k h l) by (try lia; assumption).
      rewrite byte_val_to_uint8.
      pose proof (hchar_range _ _ Hh). pose proof (hchar_range _ _ Hl).
      rewrite lor_nibbles by assumption.
      apply Z.mod_small. lia.
  - intros [c [Hin Hc]].
    apply (In_nth _ _ "000"%byte) in Hin. destruct Hin as [i [Hi Hnth]].
    rewrite (hex_decode_loop_exit word (zlen word / 2) Hw ltac:(lia));
      try lia; [reflexivity | ].
    exists (Z.of_nat i / 2).
    assert (Hdm := Z.div_mod (Z.of_nat i) 2 ltac:(lia)).
    assert (Hm := Z.mod_pos_bound (Z.of_nat i) 2 ltac:(lia)).
    split; [lia | ].
    destruct (Z.eq_dec (Z.of_nat i mod 2) 0) as [Ev | Od].
    + left. replace (2 * (Z.of_nat i / 2)) with (Z.of_nat i) by lia.
      unfold byte_at. rewrite Nat2Z.id, Hnth. exact Hc.
    + right. replace (2 * (Z.of_nat i / 2) + 1) with (Z.of_nat i) by lia.
      unfold byte_at. rewrite Nat2Z.id, Hnth. exact Hc.
Qed.

Lemma hex_encode_length digit bs :
  zlen (hex_encode digit bs) = 2 * zlen bs.
Proof.
  induction bs as [ | b bs IH]; [reflexivity | ].
  cbn [hex_encode length]. lia.
Qed.

Lemma hex_encode_at digit bs :
  forall k, 0 <= k < zlen bs ->
    byte_at (hex_encode digit bs) (2 * k) = digit (byte_val (byte_at bs k) / 16) /\
    byte_at (hex_encode digit bs) (2 * k + 1)
    = digit (byte_val (byte_at bs k) mod 16).
Proof.
  unfold byte_at. induction bs as [ | b bs IH]; intros k Hk;
    [cbn in Hk; lia | ].
  destruct (Z.eq_dec k 0) as [-> | Hne]; [split; reflexivity | ].
  cbn [length] in Hk. specialize (IH (k - 1) ltac:(lia)).
  replace (Z.to_nat (2 * k)) with (S (S (Z.to_nat (2 * (k - 1))))) by lia.
  replace (Z.to_nat (2 * k + 1)) with (S (S (Z.to_nat (2 * (k - 1) + 1))))
    by lia.
  replace (Z.to_nat k) with (S (Z.to_nat (k - 1))) by lia.
  cbn [hex_encode nth]. exact IH.
Qed.

(** X10. Round trip: [hex_decode] gives back every non-empty byte sequence
    from its hexadecimal writing, in lower case and in upper case. *)
Theorem hex_decode_encode block bytes digit :
  digit = hex_digit_lower \/ digit = hex_digit_upper ->
  bytes <> [] -> 2 * zlen bytes < SIZE_MOD -> zlen block = zlen bytes ->
  result (hex_decode block (Some (hex_encode digit bytes)))
  = Ret (Hex_bytes bytes (zlen bytes)).
Proof.
  intros Hd Hne Hsz Hb.
  assert (Hlen := hex_encode_length digit bytes).
  assert (Hpos : 1 <= zlen bytes) by (destruct bytes; [congruence | cbn; lia]).
  assert (Hdiv : zlen (hex_encode digit bytes) / 2 = zlen bytes).
  { rewrite Hlen. rewrite Z.mul_comm. apply Z.div_mul. lia. }
  assert (Hdig : forall k, 0 <= k < zlen bytes ->
            hchar (byte_at (hex_encode digit bytes) (2 * k))
            = Some (byte_val (byte_at bytes k) / 16) /\
            hchar (byte_at (hex_encode digit bytes) (2 * k + 1))
            = Some (byte_val (byte_at bytes k) mod 16)).
  { intros k Hk. destruct (hex_encode_at digit bytes k Hk) as [-> ->].
    pose proof (byte_val_range (byte_at bytes k)) as Hr.
    unfold ALPHABET_LEN in Hr.
    split; apply (hchar_digit digit Hd).
    - split; [apply Z.div_pos; lia | apply Z.div_lt_upper_bound; lia].
    - apply Z.mod_pos_bound. lia. }
  destruct (hex_decode_digits block (hex_encode digit bytes)) as [Hgood _];
    try lia.
  { rewrite Hlen. rewrite Z.mul_comm. apply Z_mod_mult. }
  destruct Hgood as [bs [R [Hl Hval]]].
  - intros c Hin. apply (In_nth _ _ "000"%byte) in Hin.
    destruct Hin as [i [Hi Hnth]].
    assert (Hdm := Z.div_mod (Z.of_nat i) 2 ltac:(lia)).
    assert (Hm := Z.mod_pos_bound (Z.of_nat i) 2 ltac:(lia)).
    destruct (Hdig (Z.of_nat i / 2) ltac:(lia)) as [He Ho].
    destruct (Z.eq_dec (Z.of_nat i mod 2) 0) as [Ev | Od].
    + replace (2 * (Z.of_nat i / 2)) with (Z.of_nat i) in He by lia.
      unfold byte_at in He at 1. rewrite Nat2Z.id, Hnth in He. congruence.
    + replace (2 * (Z.of_nat i / 2) + 1) with (Z.of_nat i) in Ho by lia.
      unfold byte_at in Ho at 1. rewrite Nat2Z.id, Hnth in Ho. congruence.
  - rewrite R, Hdiv. f_equal. f_equal.
    apply (nth_ext _ _ "000"%byte "000"%byte); [lia | ].
    intros i Hi. apply byte_val_inj.
    destruct (Hdig (Z.of_nat i) ltac:(lia)) as [He Ho].
    specialize (Hval (Z.of_nat i) _ _ ltac:(lia) He Ho).
    unfold byte_at in Hval at 1. rewrite Nat2Z.id in Hval. rewrite Hval.
    unfold byte_at. rewrite Nat2Z.id.
    pose proof (Z.div_mod (byte_val (nth i bytes "000"%byte)) 16 ltac:(lia)).
    lia.
Qed.

(** *** print_match *)









Section PrintMatch.

Variables (file : list byte) (offset pattern_size start end_ color : Z).
Variables (sel : bool -> bool) (A Bd : Z).

Hypothesis start_pos : 0 <= start.
Hypothesis A_pos : 0 <= A.
Hypothesis end_small : end_ + LINE_SIZE <= INT_MAX.
Hypothesis sel_range :
  forall k, start <= k <= end_ ->
            (sel (in_red color offset pattern_size k) = true <-> A <= k < Bd).




End PrintMatch.

Lemma to_size_neg z : - SIZE_MOD <= z < 0 -> to_size z = z + SIZE_MOD.
Proof.
  intros H. unfold to_size. symmetry.
  apply (Z.mod_unique z SIZE_MOD (-1) (z + SIZE_MOD)); lia.
Qed.

(** X11. A match nearer to the start of the file than [before] bytes is not
    shown: [offset - before] wraps around, the loop [while (cur < end)] is
    not entered, and [print_match] prints the closing empty line only,
    without reading the file. *)
Theorem print_match_near_start fuel file offset pattern_size before after color :
  (1 <= fuel)%nat ->
  0 <= offset < before -> 0 <= pattern_size -> 1 <= after ->
  before + pattern_size + after + LINE_SIZE <= SIZE_MOD ->
  print_match fuel file offset pattern_size before after color
  = ([], Ret [Pr_newline]).
Proof.
  intros Hf Ho Hp Ha Hsz. unfold LINE_SIZE in Hsz.
  unfold print_match. cbv zeta.
  rewrite (to_size_neg (offset - before)) by lia.
  rewrite (to_size_id (offset + pattern_size)) by lia.
  rewrite (to_size_id (offset + pattern_size + after)) by lia.
  rewrite (to_size_id (offset + pattern_size + after - 1)) by lia.
  pose proof (Z.mod_pos_bound (offset - before + SIZE_MOD) LINE_SIZE
                ltac:(unfold LINE_SIZE; lia)) as Hm.
  unfold LINE_SIZE in Hm. unfold LINE_SIZE at 1.
  rewrite to_size_id by lia.
  destruct fuel as [ | fuel]; [lia | ]. cbn [print_lines].
  match goal with
  | |- context [?a <? ?b] => destruct (a <? b) eqn:E; [lia | ]
  end.
  reflexivity.
Qed.






End WordSize.

(** ** Runs on the sample inputs, with a 64-bit [size_t] *)

Ltac by_compute :=
  first [ vm_compute; first [reflexivity | intros Hc; discriminate Hc]
        | cbn; lia ].

Lemma ex_AB_built : built_from ex_AB ex_AB_delta1 ex_AB_delta2.
Proof.
  exists (repeat 0 256), (repeat 0 2). repeat split; by_compute.
Defined.

Lemma ex_AA_built : built_from ex_AA ex_AA_delta1 ex_AA_delta2.
Proof.
  exists (repeat 0 256), (repeat 0 2). repeat split; by_compute.
Defined.

Lemma bm_search_sound_witness : slice ex_CABABD 1 (length ex_AB) = ex_AB.
Proof.
  apply (bm_search_sound 64 ltac:(lia) 10 ex_CABABD ex_AB
           ex_AB_delta1 ex_AB_delta2 1);
    [by_compute | by_compute | by_compute | exact ex_AB_built
    | by_compute | by_compute].
Defined.

Lemma bm_search_complete_witness :
  (forall o, 0 <= o -> slice ex_XYZ o (length ex_AB) <> ex_AB) /\
  naive_search ex_XYZ ex_AB = None.
Proof.
  apply (bm_search_complete 64 ltac:(lia) 10 ex_XYZ ex_AB
           ex_AB_delta1 ex_AB_delta2);
    [by_compute | by_compute | by_compute | exact ex_AB_built | by_compute].
Defined.

Lemma bm_search_leftmost_witness :
  0 <= 0 < 1 /\ slice ex_CABABD 0 (length ex_AB) <> ex_AB.
Proof.
  split; [lia | ].
  apply (bm_search_leftmost 64 ltac:(lia) 10 ex_CABABD ex_AB
           ex_AB_delta1 ex_AB_delta2 1);
    [by_compute | by_compute | by_compute | exact ex_AB_built
    | by_compute | by_compute | lia].
Defined.

Lemma make_delta1_formula_witness :
  exists d1,
    result (make_delta1 (repeat 0 256) ex_ABYXCDEYX (zlen ex_ABYXCDEYX)) = Ret d1 /\
    ((forall k, 0 <= k < zlen ex_ABYXCDEYX - 1 ->
                byte_val (byte_at ex_ABYXCDEYX k) <> 89) ->
     int_at d1 89 = zlen ex_ABYXCDEYX) /\
    (forall k, 0 <= k < zlen ex_ABYXCDEYX - 1 ->
               byte_val (byte_at ex_ABYXCDEYX k) = 89 ->
               (forall k', k < k' < zlen ex_ABYXCDEYX - 1 ->
                           byte_val (byte_at ex_ABYXCDEYX k') <> 89) ->
               int_at d1 89 = zlen ex_ABYXCDEYX - 1 - k).
Proof.
  apply (make_delta1_formula (repeat 0 256) ex_ABYXCDEYX 89).
  - by_compute.
  - split; by_compute.
  - split; by_compute.
Defined.

Lemma delta_tables_range_witness :
  exists d1 d2,
    result (make_delta1 (repeat 0 256) ex_AB (zlen ex_AB)) = Ret d1 /\
    result (make_delta2 (repeat 0 2) ex_AB (zlen ex_AB)) = Ret d2 /\
    zlen d1 = ALPHABET_LEN /\ length d2 = length ex_AB /\
    (forall c, 0 <= c < ALPHABET_LEN -> 1 <= int_at d1 c <= zlen ex_AB) /\
    (forall j, 0 <= j < zlen ex_AB -> 1 <= int_at d2 j <= 2 * zlen ex_AB - 1).
Proof.
  apply (delta_tables_range (repeat 0 256) (repeat 0 2) ex_AB); by_compute.
Defined.

Lemma bm_search_degenerate_witness :
  bm_search 64 1 ex_AA (zlen ex_AA) ex_XYZ (zlen ex_XYZ) [] []
  = ([], Ret (NOT_FOUND 64)) /\
  exists o,
    result (bm_search 64 10 ex_CABABD (zlen ex_CABABD) ex_AB (zlen ex_AB)
              ex_AB_delta1 ex_AB_delta2) = Ret o.
Proof.
  split.
  - apply (proj1 (bm_search_degenerate 64 ltac:(lia) 1 ex_AA ex_XYZ [] []));
      [split; by_compute | by_compute | by_compute].
  - apply (proj2 (bm_search_degenerate 64 ltac:(lia) 10 ex_CABABD ex_AB
                    ex_AB_delta1 ex_AB_delta2));
      [by_compute | by_compute | exact ex_AB_built | by_compute].
Defined.

Lemma main_find_all_naive_witness :
  (forall l,
     result (main_find_all 64 12 ex_CABABD (zlen ex_CABABD) ex_AB (zlen ex_AB)
               ex_AB_delta1 ex_AB_delta2 0) = Ret l ->
     l = map Z.of_nat (naive_scan ex_CABABD ex_AB O O) /\
     StronglySorted (fun a b => a + zlen ex_AB <= b) l) /\
  (zlen ex_CABABD + zlen ex_AB + 3 <= Z.of_nat 12 ->
   exists l,
     result (main_find_all 64 12 ex_CABABD (zlen ex_CABABD) ex_AB (zlen ex_AB)
               ex_AB_delta1 ex_AB_delta2 0) = Ret l).
Proof.
  apply (main_find_all_naive 64 ltac:(lia) 12 ex_CABABD ex_AB
           ex_AB_delta1 ex_AB_delta2);
    [by_compute | by_compute | by_compute | exact ex_AB_built].
Defined.

Lemma main_find_all_repeat_witness :
  result (main_find_all 64 12 ex_AAAA (zlen ex_AAAA) ex_AA (zlen ex_AA)
            ex_AA_delta1 ex_AA_delta2 0) = Ret [0; 2].
Proof.
  apply (main_find_all_repeat 64 ltac:(lia) 12 "A"%byte 2 2
           ex_AA_delta1 ex_AA_delta2);
    [by_compute | by_compute | by_compute | exact ex_AA_built | by_compute].
Defined.

Lemma bm_search_sentinel_witness :
  (result (bm_search_exit 64 10 ex_CABABD (zlen ex_CABABD) ex_AB (zlen ex_AB)
             ex_AB_delta1 ex_AB_delta2) = Ret (Matched 1) ->
   0 <= 1 /\ 1 + zlen ex_AB <= zlen ex_CABABD /\ 1 < NOT_FOUND 64) /\
  (result (bm_search 64 10 ex_CABABD (zlen ex_CABABD) ex_AB (zlen ex_AB)
             ex_AB_delta1 ex_AB_delta2) = Ret 1 ->
   1 <> NOT_FOUND 64 ->
   0 <= 1 /\ 1 + zlen ex_AB <= zlen ex_CABABD /\ 1 < NOT_FOUND 64).
Proof.
  apply (bm_search_sentinel 64 ltac:(lia) 10 ex_CABABD ex_AB
           ex_AB_delta1 ex_AB_delta2 1); [split; by_compute | by_compute].
Defined.

Lemma bm_search_in_bounds_witness :
  Forall (in_bounds ex_AAAA ex_AA)
    (trace (bm_search 64 10 ex_AAAA (zlen ex_AAAA) ex_AA (zlen ex_AA)
              ex_AA_delta1 ex_AA_delta2)) /\
  result (bm_search 64 10 ex_AAAA (zlen ex_AAAA) ex_AA (zlen ex_AA)
            ex_AA_delta1 ex_AA_delta2) <> Fault /\
  (slice ex_AAAA 0 (length ex_AA) = ex_AA -> zlen ex_AA + 1 <= Z.of_nat 10 ->
   result (bm_match 64 10 ex_AAAA ex_AA (to_size 64 (zlen ex_AA - 1))
             (to_int (to_size 64 (zlen ex_AA - 1)))) = Ret (2 ^ 64 - 1, -1) /\
   result (bm_search 64 11 ex_AAAA (zlen ex_AAAA) ex_AA (zlen ex_AA)
             ex_AA_delta1 ex_AA_delta2) = Ret 0).
Proof.
  apply (bm_search_in_bounds 64 ltac:(lia) 10 ex_AAAA ex_AA
           ex_AA_delta1 ex_AA_delta2);
    [by_compute | by_compute | by_compute | exact ex_AA_built].
Defined.

Lemma is_prefix_correct_witness :
  result (is_prefix ex_ABCAB (zlen ex_ABCAB) 3) = Ret 1.
Proof.
  apply (proj1 (is_prefix_correct ex_ABCAB 3 ltac:(split; by_compute)
                  ltac:(by_compute))).
  reflexivity.
Defined.

Lemma suffix_length_correct_witness :
  exists m,
    result (suffix_length ex_dddbcabc (zlen ex_dddbcabc) 4) = Ret m /\
    0 <= m <= 4 /\
    (forall k, 0 <= k < m ->
               byte_at ex_dddbcabc (4 - k)
               = byte_at ex_dddbcabc (zlen ex_dddbcabc - 1 - k)) /\
    (m < 4 ->
     byte_at ex_dddbcabc (4 - m) <> byte_at ex_dddbcabc (zlen ex_dddbcabc - 1 - m)).
Proof.
  apply (suffix_length_correct ex_dddbcabc 4); [split; by_compute | by_compute].
Defined.

Lemma make_delta2_exact_witness :
  exists d2,
    result (make_delta2 (repeat 0 9) ex_ABYXCDEYX (zlen ex_ABYXCDEYX)) = Ret d2 /\
    zlen ex_ABYXCDEYX - 6 <= int_at d2 6 /\
    compatible ex_ABYXCDEYX 6 (int_at d2 6 - (zlen ex_ABYXCDEYX - 1 - 6)) /\
    forall s, 1 <= s < int_at d2 6 - (zlen ex_ABYXCDEYX - 1 - 6) ->
              ~ compatible ex_ABYXCDEYX 6 s.
Proof.
  apply (make_delta2_exact (repeat 0 9) ex_ABYXCDEYX 6);
    [by_compute | by_compute | by_compute | split; by_compute].
Defined.

Lemma bm_search_sound_any_tables_witness :
  slice ex_CABABD 1 (length ex_AB) = ex_AB.
Proof.
  apply (bm_search_sound_any_tables 64 ltac:(lia) 10 ex_CABABD ex_AB
           (repeat 1 256) (repeat 1 2) 1);
    [split; by_compute | by_compute | by_compute | by_compute].
Defined.

Lemma bm_search_empty_pattern_witness :
  bm_search 64 1 ex_CABABD (zlen ex_CABABD) [] 0 [] [] = ([], Ret (NOT_FOUND 64)) /\
  main_find_all 64 2 ex_CABABD (zlen ex_CABABD) [] 0 [] [] 0 = ([], Ret []).
Proof.
  apply (bm_search_empty_pattern 64 ltac:(lia) 1 ex_CABABD [] [] []);
    [lia | by_compute].
Defined.

Lemma main_find_all_reports_witness :
  Forall (fun o => 0 <= o /\ o + zlen ex_AB <= zlen ex_CABABD /\
                   slice ex_CABABD o (length ex_AB) = ex_AB) [1; 3] /\
  Z.of_nat (length [1; 3]) * zlen ex_AB <= zlen ex_CABABD.
Proof.
  apply (main_find_all_reports 64 ltac:(lia) 12 ex_CABABD ex_AB
           ex_AB_delta1 ex_AB_delta2 [1; 3]);
    [by_compute | by_compute | by_compute | exact ex_AB_built | by_compute].
Defined.

Lemma main_find_all_covers_witness :
  exists r, In r [0; 2] /\ r <= 1 < r + zlen ex_AA.
Proof.
  apply (main_find_all_covers 64 ltac:(lia) 12 ex_AAAA ex_AA
           ex_AA_delta1 ex_AA_delta2 [0; 2] 1);
    [by_compute | by_compute | by_compute | exact ex_AA_built
    | by_compute | by_compute | by_compute].
Defined.


Lemma hex_decode_digits_witness :
  exists bytes,
    result (hex_decode 64 (repeat "000"%byte 2) (Some ex_hex_414b))
    = Ret (Hex_bytes bytes (zlen ex_hex_414b / 2)) /\
    zlen bytes = zlen ex_hex_414b / 2 /\
    forall k h l, 0 <= k < zlen ex_hex_414b / 2 ->
      hchar (byte_at ex_hex_414b (2 * k)) = Some h ->
      hchar (byte_at ex_hex_414b (2 * k + 1)) = Some l ->
      byte_val (byte_at bytes k) = 16 * h + l.
Proof.
  apply (proj1 (hex_decode_digits 64 (repeat "000"%byte 2)
                  ex_hex_414b ltac:(by_compute) ltac:(by_compute)
                  ltac:(by_compute) ltac:(by_compute))).
  intros c Hin.
  repeat (destruct Hin as [<- | Hin]; [by_compute | ]). destruct Hin.
Defined.

Lemma hex_decode_encode_witness :
  result (hex_decode 64 (repeat "000"%byte 2)
            (Some (hex_encode hex_digit_lower ex_bytes_AK)))
  = Ret (Hex_bytes ex_bytes_AK (zlen ex_bytes_AK)).
Proof.
  apply (hex_decode_encode 64 (repeat "000"%byte 2) ex_bytes_AK
           hex_digit_lower);
    [left; reflexivity | discriminate | by_compute | by_compute].
Defined.

Lemma print_match_near_start_witness :
  print_match 64 1 ex_CABABD 1 2 16 16 0 = ([], Ret [Pr_newline]).
Proof.
  apply (print_match_near_start 64 1 ex_CABABD 1 2 16 16 0);
    [lia | split; by_compute | by_compute | by_compute | by_compute].
Defined.


